(** * yt_downloader.py: job repository, download orchestrator, batch runner

    A shallow embedding of the class [YTDownloader] of [src/yt_downloader.py].
    Python strings are sequences of Unicode code points; the SQLite table
    [videos] is a list of rows in insertion order together with the
    AUTOINCREMENT counter; the external tool (yt-dlp) and the console are
    inputs of the functions that call them. *)

From Stdlib Require Import String Ascii.
From Stdlib Require Import List NArith ZArith Bool Lia.
Import ListNotations.

(** ** Python strings *)

Module PyStr.

(** A character is a code point, a [str] a list of them. *)
Definition char := N.
Definition str := list char.

(** A literal of the source, written as a Rocq string (ASCII only). *)
Definition lit (s : string) : str := map N_of_ascii (list_ascii_of_string s).

Fixpoint str_eqb (a b : str) : bool :=
  match a, b with
  | [], [] => true
  | x :: a', y :: b' => N.eqb x y && str_eqb a' b'
  | _, _ => false
  end.

(** [bool(s)] for a [str]: the empty string is falsy. *)
Definition truthy (s : str) : bool :=
  match s with [] => false | _ :: _ => true end.

(** [str.isspace] on one character: the code points CPython's
    [_PyUnicode_IsWhitespace] accepts; [str.strip()] with no argument
    removes exactly these. *)
Definition isspace (c : char) : bool :=
  ((9 <=? c) && (c <=? 13) || (28 <=? c) && (c <=? 32)
   || (c =? 133) || (c =? 160) || (c =? 5760)
   || (8192 <=? c) && (c <=? 8202)
   || (c =? 8232) || (c =? 8233) || (c =? 8239) || (c =? 8287)
   || (c =? 12288))%N.

Fixpoint lstrip (s : str) : str :=
  match s with
  | [] => []
  | c :: s' => if isspace c then lstrip s' else s
  end.

Definition rstrip (s : str) : str := rev (lstrip (rev s)).

(** [s.strip()] *)
Definition strip (s : str) : str := rstrip (lstrip s).

(** Whether a string starts, or ends, with a whitespace character. *)
Definition starts_with_space (s : str) : bool :=
  match s with
  | [] => false
  | c :: _ => isspace c
  end.

Definition ends_with_space (s : str) : bool := starts_with_space (rev s).

(** [s[:n]] *)
Definition slice_to (n : nat) (s : str) : str := firstn n s.

(** [xs[-n:]] for [n > 0]: the last [n] elements, all of them when there
    are fewer. *)
Definition slice_last {A} (n : nat) (xs : list A) : list A :=
  skipn (length xs - n) xs.

(** [sep.join(parts)] with the empty separator. *)
Definition join_empty (parts : list str) : str := concat parts.

End PyStr.
Import PyStr.

(** ** Identity extraction and filename sanitization *)

(** The character class of the pattern in [_sanitize_filename], by code
    point: [<] 60, [>] 62, [:] 58, the double quote 34, [/] 47, the
    backslash 92, [|] 124, [?] 63, [*] 42. *)
Definition reserved_chars : list char := [60; 62; 58; 34; 47; 92; 124; 63; 42]%N.

Definition is_reserved (c : char) : bool := existsb (N.eqb c) reserved_chars.

(** [re.sub] of that class by the empty string: every reserved character
    is dropped. *)
Definition remove_reserved (filename : str) : str :=
  filter (fun c => negb (is_reserved c)) filename.

(** [_sanitize_filename], lines 251-255. *)
Definition _sanitize_filename (filename : str) : str :=
  let filename := remove_reserved filename in
  let filename := strip filename in
  slice_to 200 filename.

(** The character class [[a-zA-Z0-9_-]] of [_extract_video_id]. *)
Definition is_id_char (c : char) : bool :=
  ((97 <=? c) && (c <=? 122) || (65 <=? c) && (c <=? 90)
   || (48 <=? c) && (c <=? 57) || (c =? 95) || (c =? 45))%N.

(** The pattern [v=([a-zA-Z0-9_-]{11})] matched at the head of [s]
    ([v] is 118, [=] is 61): the captured group. *)
Definition match_video_id_here (s : str) : option str :=
  match s with
  | a :: b :: t =>
      if (a =? 118)%N && (b =? 61)%N && (11 <=? length t)
         && forallb is_id_char (firstn 11 t)
      then Some (firstn 11 t) else None
  | _ => None
  end.

(** [_extract_video_id], lines 144-147: [re.search] takes the leftmost
    position at which the pattern matches; [None] when there is none. *)
Fixpoint _extract_video_id (url : str) : option str :=
  match match_video_id_here url with
  | Some vid => Some vid
  | None =>
      match url with
      | [] => None
      | _ :: url' => _extract_video_id url'
      end
  end.

(** ** The table [videos] *)

Definition timestamp := N.

(** The values the column [status] takes. *)
Inductive Status := pending | completed | failed.

Definition Status_eqb (a b : Status) : bool :=
  match a, b with
  | pending, pending | completed, completed | failed, failed => true
  | _, _ => false
  end.

(** One row of [videos], columns in the order of [CREATE TABLE]
    (lines 29-43); a nullable column is an [option]. *)
Record Row := mkRow {
  id : N;                          (* INTEGER PRIMARY KEY AUTOINCREMENT *)
  video_url : str;                 (* TEXT UNIQUE NOT NULL *)
  video_id : str;                  (* TEXT NOT NULL *)
  title : option str;
  channel_url : option str;
  status : Status;                 (* TEXT DEFAULT 'pending' *)
  download_path : option str;
  custom_filename : option str;
  scraped_at : timestamp;          (* DEFAULT CURRENT_TIMESTAMP *)
  downloaded_at : option timestamp;
  error_msg : option str
}.

(** The stored table: its rows in insertion order and the AUTOINCREMENT
    counter (the largest id ever given out, which a deletion keeps). *)
Record DB := mkDB {
  rows : list Row;
  seq : N
}.

Definition empty_db : DB := {| rows := []; seq := 0 |}.

Definition url_in (url : str) (rs : list Row) : bool :=
  existsb (fun r => str_eqb (video_url r) url) rs.

(** The row an [INSERT] of lines 128-134 creates: the three values
    given, ['pending'], the time of the statement, NULL elsewhere. *)
Definition pending_row (i : N) (url vid channel : str) (now : timestamp) : Row :=
  {| id := i; video_url := url; video_id := vid;
     title := None; channel_url := Some channel;
     status := pending; download_path := None;
     custom_filename := None; scraped_at := now;
     downloaded_at := None; error_msg := None |}.

(** The statement [INSERT INTO videos (video_url, video_id, channel_url,
    status) VALUES (?, ?, ?, 'pending')] of lines 128-134. [None] is
    [sqlite3.IntegrityError]: a NULL [video_id] breaks NOT NULL, a stored
    [video_url] breaks UNIQUE; the failed statement changes nothing. *)
Definition insert_video (db : DB) (url : str) (vid : option str)
    (channel : str) (now : timestamp) : option DB :=
  match vid with
  | None => None
  | Some v =>
      if url_in url (rows db) then None
      else
        let i := (seq db + 1)%N in
        Some {| rows := rows db ++ [pending_row i url v channel now];
                seq := i |}
  end.

(** The body of the loop of [add_videos_to_db] for one [url]: the new
    store and whether [added] was incremented; [IntegrityError] is
    swallowed. *)
Definition add_one (db : DB) (url : str) (channel : str) (now : timestamp)
    : DB * bool :=
  let vid := _extract_video_id url in
  match insert_video db url vid channel now with
  | Some db' => (db', true)
  | None => (db, false)
  end.

(** The loop of [add_videos_to_db]; the [k]-th statement runs at time
    [clock k]. *)
Fixpoint add_loop (db : DB) (added : nat) (k : nat) (video_urls : list str)
    (channel : str) (clock : nat -> timestamp) : DB * nat :=
  match video_urls with
  | [] => (db, added)
  | url :: rest =>
      let '(db', ok) := add_one db url channel (clock k) in
      add_loop db' (if ok then S added else added) (S k) rest channel clock
  end.

(** [add_videos_to_db], lines 119-142: the store afterwards and the
    returned count [added]. *)
Definition add_videos_to_db (db : DB) (video_urls : list str)
    (channel : str) (clock : nat -> timestamp) : DB * nat :=
  add_loop db 0 0 video_urls channel clock.

(** [WHERE channel_url=?] on a nullable column: NULL matches nothing. *)
Definition channel_is (channel : str) (r : Row) : bool :=
  match channel_url r with
  | Some c => str_eqb c channel
  | None => false
  end.

(** [get_pending_videos], lines 149-164: [(id, video_url, video_id)] of
    the pending rows; the channel filter applies when the argument is
    truthy. *)
Definition get_pending_videos (db : DB) (channel : option str)
    : list (N * str * str) :=
  let keep r :=
    Status_eqb (status r) pending &&
    match channel with
    | Some c => if truthy c then channel_is c r else true
    | None => true
    end in
  map (fun r => (id r, video_url r, video_id r)) (filter keep (rows db)).

(** The [UPDATE] of [_update_video_status] applied to one row; the
    arguments [download_path], [title], [custom_name] and [error_msg] of
    the source carry the prefix [a_] here, the columns keep their names. *)
Definition update_row (url : str) (st : Status)
    (a_download_path a_title a_custom_name a_error_msg : option str)
    (now : timestamp) (r : Row) : Row :=
  if str_eqb (video_url r) url then
    match st with
    | completed =>
        {| id := id r; video_url := video_url r; video_id := video_id r;
           title := a_title; channel_url := channel_url r;
           status := st; download_path := a_download_path;
           custom_filename := a_custom_name; scraped_at := scraped_at r;
           downloaded_at := Some now; error_msg := error_msg r |}
    | _ =>
        {| id := id r; video_url := video_url r; video_id := video_id r;
           title := title r; channel_url := channel_url r;
           status := st; download_path := download_path r;
           custom_filename := custom_filename r; scraped_at := scraped_at r;
           downloaded_at := downloaded_at r; error_msg := a_error_msg |}
    end
  else r.

(** [_update_video_status], lines 257-290: for ["completed"] the columns
    status, download_path, title, custom_filename and downloaded_at are
    set; for any other status only status and error_msg. No row matching
    [video_url] means no change. *)
Definition _update_video_status (db : DB) (url : str) (st : Status)
    (a_download_path a_title a_custom_name a_error_msg : option str)
    (now : timestamp) : DB :=
  {| rows := map (update_row url st a_download_path a_title a_custom_name
                    a_error_msg now) (rows db);
     seq := seq db |}.

(** ** The download orchestrator and the batch runner *)

(** What [subprocess.run(info_cmd, capture_output=True, text=True,
    timeout=30)] does (lines 172-174). *)
Inductive InfoRun :=
| InfoTimeout                                (* raised TimeoutExpired *)
| InfoRaised (msg : str)                     (* raised another exception, [str(e)] *)
| InfoExited (returncode : Z) (stdout : str).

(** What the download does (lines 207-221): [Popen] or the reading loop
    raises, or the process exits after the lines read from its output.
    Neither [Popen] nor [process.wait()] is given a timeout. *)
Inductive DownloadRun :=
| DownloadRaised (msg : str)
| DownloadExited (returncode : Z) (output_lines : list str).

(** [bool(custom_name)] for the optional argument. *)
Definition opt_truthy (o : option str) : bool :=
  match o with
  | Some s => truthy s
  | None => false
  end.

(** Lines 175-177. *)
Definition resolve_title (video_id : str) (returncode : Z) (stdout : str) : str :=
  if (returncode =? 0)%Z then strip stdout else lit "video_" ++ video_id.

(** Lines 180-185. *)
Definition resolve_filename (video_id : str) (custom_name : option str)
    (use_title : bool) (title : str) : str :=
  match custom_name with
  | Some c =>
      if truthy c then _sanitize_filename c
      else if use_title then _sanitize_filename title else video_id
  | None => if use_title then _sanitize_filename title else video_id
  end.

(** The arguments of one call of [download_video] by the batch runner. *)
Record Call := mkCall {
  call_video_id : str;
  call_video_url : str;
  call_custom_name : option str;
  call_use_title : bool
}.

(** What the console and the external tool give for one item of a batch:
    the lowered answer to the naming prompt, the answer to the custom
    filename prompt (read only after the answer [custom]), the two runs
    of the external tool and the time of the status update. *)
Record ItemIO := mkItemIO {
  choice : str;
  custom_input : str;
  info : InfoRun;
  dl : DownloadRun;
  now : timestamp
}.

Section Orchestrator.

(** [str(self.download_dir / name)]: the download directory joined with
    a file name, as [pathlib] renders it. *)
Variable output_path_str : str -> str.

(** The three [except]/[else] paths that record a failure
    (lines 232-233, 241-242, 246-247). *)
Definition fail_with (db : DB) (video_url error : str) (now : timestamp)
    : DB * (bool * str) :=
  (_update_video_status db video_url failed None None None (Some error) now,
   (false, error)).

(** [download_video], lines 166-249. *)
Definition download_video (db : DB) (video_id video_url : str)
    (custom_name : option str) (use_title : bool)
    (info : InfoRun) (dl : DownloadRun) (now : timestamp)
    : DB * (bool * str) :=
  match info with
  | InfoTimeout => fail_with db video_url (lit "Download timeout") now
  | InfoRaised msg => fail_with db video_url (slice_to 500 msg) now
  | InfoExited returncode stdout =>
      let title := resolve_title video_id returncode stdout in
      let filename := resolve_filename video_id custom_name use_title title in
      let output_path := output_path_str (filename ++ lit ".mp4") in
      match dl with
      | DownloadRaised msg => fail_with db video_url (slice_to 500 msg) now
      | DownloadExited rc output_lines =>
          if (rc =? 0)%Z then
            (_update_video_status db video_url completed (Some output_path)
               (Some title) custom_name None now,
             (true, output_path))
          else
            let error := slice_to 500 (join_empty (slice_last 10 output_lines)) in
            fail_with db video_url error now
      end
  end.

(** Lines 318-324: the naming of one item. [use_title] is the local
    variable of [download_all_pending], which the answer [n] assigns;
    [custom_name] is set to [None] at the start of every iteration. *)
Definition item_naming (interactive use_title : bool) (e : ItemIO)
    : option str * bool :=
  let custom_name : option str := None in
  if interactive then
    if str_eqb (choice e) (lit "n") then (custom_name, false)
    else if str_eqb (choice e) (lit "custom") then (Some (custom_input e), use_title)
    else (custom_name, use_title)
  else (custom_name, use_title).

(** The loop of lines 315-326 from item [k] on: the store afterwards and
    the calls of [download_video] it made, in order. *)
Fixpoint batch_loop (db : DB) (use_title interactive : bool) (k : nat)
    (videos : list (N * str * str)) (io : nat -> ItemIO) : DB * list Call :=
  match videos with
  | [] => (db, [])
  | (_, url, vid_id) :: rest =>
      let e := io k in
      let '(custom_name, use_title) := item_naming interactive use_title e in
      let '(db', _) :=
        download_video db vid_id url custom_name use_title (info e) (dl e) (now e) in
      let '(db'', calls) := batch_loop db' use_title interactive (S k) rest io in
      (db'', mkCall vid_id url custom_name use_title :: calls)
  end.

(** [download_all_pending], lines 292-326; [proceed] is the lowered
    answer to the confirmation prompt. *)
Definition download_all_pending (db : DB) (use_title interactive : bool)
    (channel : option str) (skip_confirmation : bool) (proceed : str)
    (io : nat -> ItemIO) : DB * list Call :=
  let videos := get_pending_videos db channel in
  match videos with
  | [] => (db, [])
  | _ :: _ =>
      if negb skip_confirmation && negb (str_eqb proceed (lit "y")) then (db, [])
      else batch_loop db use_title interactive 0 videos io
  end.

End Orchestrator.

(** ** Maintenance: deletion *)

(** The argument [status] of [delete_videos]: the command line offers
    [all] and the three statuses. *)
Inductive DeleteArg := delete_all | delete_status (s : Status).

Definition selected (a : DeleteArg) (r : Row) : bool :=
  match a with
  | delete_all => true
  | delete_status s => Status_eqb (status r) s
  end.

(** What [delete_videos] prints. *)
Inductive DeleteReport :=
| NoVideosFound
| DeletionAborted
| Deleted (count : nat).

(** [delete_videos], lines 372-404; [answer] is the lowered answer to the
    confirmation prompt. *)
Definition delete_videos (db : DB) (a : DeleteArg) (skip_confirmation : bool)
    (answer : str) : DB * DeleteReport :=
  let count := length (filter (selected a) (rows db)) in
  if (count =? 0)%nat then (db, NoVideosFound)
  else if negb skip_confirmation && negb (str_eqb answer (lit "y"))
  then (db, DeletionAborted)
  else ({| rows := filter (fun r => negb (selected a r)) (rows db);
           seq := seq db |},
        Deleted count).

(** ** Vocabulary of the claims *)

(** UNIQUE on [video_url]. *)
Definition unique_urls (db : DB) : Prop := NoDup (map video_url (rows db)).

(** The status stored for a URL, when a row has it. *)
Definition status_of (db : DB) (url : str) : option Status :=
  option_map status (find (fun r => str_eqb (video_url r) url) (rows db)).

(** A column holds a value (is not NULL). *)
Definition is_set {A} (o : option A) : bool :=
  match o with Some _ => true | None => false end.

(** The three biconditionals between [status] and the presence of
    [download_path] and [error_msg], on one row. *)
Definition row_consistent (r : Row) : Prop :=
  (status r = completed <-> is_set (download_path r) = true /\ is_set (error_msg r) = false) /\
  (status r = failed <-> is_set (error_msg r) = true /\ is_set (download_path r) = false) /\
  (status r = pending <-> is_set (download_path r) = false /\ is_set (error_msg r) = false).

(** The operations of the job repository, as the program performs them:
    one pass of the loop of [add_videos_to_db], the two calls of
    [_update_video_status] made by [download_video], and a confirmed
    [delete_videos]. *)
Inductive RepoOp :=
| OpInsert (url channel : str) (now : timestamp)
| OpMarkCompleted (url output_path title : str) (custom_name : option str)
    (now : timestamp)
| OpMarkFailed (url error : str) (now : timestamp)
| OpDelete (a : DeleteArg).

Definition apply_op (db : DB) (op : RepoOp) : DB :=
  match op with
  | OpInsert url channel now => fst (add_one db url channel now)
  | OpMarkCompleted url output_path title custom_name now =>
      _update_video_status db url completed (Some output_path) (Some title)
        custom_name None now
  | OpMarkFailed url error now =>
      _update_video_status db url failed None None None (Some error) now
  | OpDelete a => fst (delete_videos db a true [])
  end.

(** The URL a status update names. *)
Definition marked_url (op : RepoOp) : option str :=
  match op with
  | OpMarkCompleted url _ _ _ _ | OpMarkFailed url _ _ => Some url
  | OpInsert _ _ _ | OpDelete _ => None
  end.

(** The status a status update writes. *)
Definition marked_status (op : RepoOp) : option Status :=
  match op with
  | OpMarkCompleted _ _ _ _ _ => Some completed
  | OpMarkFailed _ _ _ => Some failed
  | OpInsert _ _ _ | OpDelete _ => None
  end.

(** A status update that does not find its row in the other terminal
    state: no failed row is marked completed, no completed row is marked
    failed. *)
Definition mark_fits (db : DB) (op : RepoOp) : Prop :=
  match op with
  | OpMarkCompleted url _ _ _ _ =>
      forall r, In r (rows db) -> video_url r = url -> status r <> failed
  | OpMarkFailed url _ _ =>
      forall r, In r (rows db) -> video_url r = url -> status r <> completed
  | OpInsert _ _ _ | OpDelete _ => True
  end.

(** A URL is settled in a store when inserting it changes nothing: it has
    no video id, or a row already has it. *)
Definition settled (db : DB) (url : str) : Prop :=
  _extract_video_id url = None \/ url_in url (rows db) = true.

(** ** Concrete inputs *)

Module Examples.

(** A rendering of [str(self.download_dir / name)] for the default
    directory [downloads]. *)
Definition downloads (name : str) : str := lit "downloads/" ++ name.

Definition url_A : str := lit "https://www.youtube.com/watch?v=AAAAAAAAAAA".
Definition url_B : str := lit "https://www.youtube.com/watch?v=BBBBBBBBBBB".
Definition id_A : str := lit "AAAAAAAAAAA".
Definition id_B : str := lit "BBBBBBBBBBB".

(** 199 letters [a], a space, a letter [b]: 201 characters. *)
Definition long_name : str := repeat 97%N 199 ++ [32; 98]%N.

(** The single-video command run twice on the same URL: the first run
    downloads it, the second run fails. *)
Definition db_A_pending : DB :=
  fst (add_videos_to_db empty_db [url_A] (lit "Single Video") (fun _ => 1%N)).

Definition db_A_completed : DB :=
  fst (download_video downloads db_A_pending id_A url_A None true
         (InfoExited 0 (lit "Title")) (DownloadExited 0 []) 2%N).

Definition db_A_failed : DB :=
  let db := fst (add_videos_to_db db_A_completed [url_A] (lit "Single Video")
                   (fun _ => 3%N)) in
  fst (download_video downloads db id_A url_A None true
         (InfoExited 0 (lit "Title"))
         (DownloadExited 1 [lit "ERROR: network"]) 4%N).

(** Two discovered videos, the first downloaded, the second failed, and
    a third one discovered later. *)
Definition db_mixed : DB :=
  let db := fst (add_videos_to_db empty_db [url_A; url_B] (lit "channel")
                   (fun _ => 1%N)) in
  let db := fst (download_video downloads db id_A url_A None true
                   (InfoExited 0 (lit "Title")) (DownloadExited 0 []) 2%N) in
  let db := fst (download_video downloads db id_B url_B None true
                   (InfoExited 0 (lit "Other"))
                   (DownloadExited 1 [lit "ERROR: network"]) 3%N) in
  fst (add_videos_to_db db [lit "https://www.youtube.com/watch?v=CCCCCCCCCCC"]
         (lit "channel") (fun _ => 4%N)).

(** A batch of two pending videos, run in interactive mode with titles
    in use; both title queries and both downloads succeed. The operator
    answers [n] for the first item and [y] for the second, or [y] for
    both. *)
Definition db_two_pending : DB :=
  fst (add_videos_to_db empty_db [url_A; url_B] (lit "channel") (fun _ => 1%N)).

Definition item (answer title : string) : ItemIO :=
  {| choice := lit answer; custom_input := [];
     info := InfoExited 0 (lit title); dl := DownloadExited 0 [];
     now := 2%N |}.

Definition io_n_then_y (k : nat) : ItemIO :=
  match k with
  | 0 => item "n" "First"
  | _ => item "y" "Second"
  end.

Definition io_y_then_y (k : nat) : ItemIO :=
  match k with
  | 0 => item "y" "First"
  | _ => item "y" "Second"
  end.

End Examples.

(** ** Discovery *)

(** [s.startswith(prefix)] *)
Fixpoint startswith (prefix s : str) : bool :=
  match prefix, s with
  | [], _ => true
  | _ :: _, [] => false
  | x :: prefix', c :: s' => N.eqb x c && startswith prefix' s'
  end.

(** [sub in s] *)
Fixpoint contains (sub s : str) : bool :=
  startswith sub s ||
  match s with
  | [] => false
  | _ :: s' => contains sub s'
  end.

(** [s.split(sep)] for a separator of one character: the pieces between
    the separators, one more than there are separators. *)
Fixpoint split_on (sep : char) (s : str) : list str :=
  match s with
  | [] => [[]]
  | c :: s' =>
      if N.eqb c sep then [] :: split_on sep s'
      else
        match split_on sep s' with
        | [] => [[c]]
        | w :: ws => (c :: w) :: ws
        end
  end.

(** The substitution of line 82, which deletes every match of the
    pattern [&list=.*], read left to right.
    [skipping] holds inside a match: the dot takes every character but the
    newline (code 10), so a match runs to the end of its line; the newline
    is kept and the scan for the next match resumes after it. *)
Fixpoint sub_list_param (skipping : bool) (s : str) : str :=
  match s with
  | [] => []
  | c :: s' =>
      if skipping then
        if N.eqb c 10%N then c :: sub_list_param false s'
        else sub_list_param true s'
      else if startswith (lit "&list=") s then sub_list_param true s'
      else c :: sub_list_param false s'
  end.

Definition remove_list_param (s : str) : str := sub_list_param false s.

(** Lines 74-83 of [scrape_channel_videos] for one link: the URL appended
    to [video_urls], if any. [href] is [None] when the anchor has no such
    attribute. *)
Definition scraped_link (href : option str) : option str :=
  match href with
  | Some h =>
      if truthy h && contains (lit "/watch?v=") h then
        let full_url :=
          if startswith (lit "/") h then lit "https://www.youtube.com" ++ h
          else h in
        Some (remove_list_param full_url)
      else None
  | None => None
  end.

(** What [subprocess.run(command, capture_output=True, text=True,
    check=True, timeout=60)] does (lines 100-103): with [check=True] a
    non-zero return code raises [CalledProcessError]. *)
Inductive EnumRun :=
| EnumTimeout
| EnumRaised (msg : str)
| EnumExited (returncode : Z) (stdout stderr : str).

(** [scrape_playlist_videos], lines 95-117: the URLs returned. Each of the
    three handlers prints and leaves [video_urls] empty. *)
Definition scrape_playlist_videos (run : EnumRun) : list str :=
  match run with
  | EnumExited returncode stdout _ =>
      if (returncode =? 0)%Z then
        let video_ids := split_on 10%N (strip stdout) in
        map (fun vid_id => lit "https://www.youtube.com/watch?v=" ++ vid_id)
          (filter truthy video_ids)
      else []
  | EnumTimeout | EnumRaised _ => []
  end.

(** ** Listing *)

(** [format(s, "<w")]: left-justified in a field of [w] characters,
    padded with spaces, never cut. *)
Definition ljust (w : nat) (s : str) : str := s ++ repeat 32%N (w - length s).

Fixpoint uint_chars (d : Decimal.uint) : str :=
  match d with
  | Decimal.Nil => []
  | Decimal.D0 d' => 48%N :: uint_chars d'
  | Decimal.D1 d' => 49%N :: uint_chars d'
  | Decimal.D2 d' => 50%N :: uint_chars d'
  | Decimal.D3 d' => 51%N :: uint_chars d'
  | Decimal.D4 d' => 52%N :: uint_chars d'
  | Decimal.D5 d' => 53%N :: uint_chars d'
  | Decimal.D6 d' => 54%N :: uint_chars d'
  | Decimal.D7 d' => 55%N :: uint_chars d'
  | Decimal.D8 d' => 56%N :: uint_chars d'
  | Decimal.D9 d' => 57%N :: uint_chars d'
  end.

(** [str(n)] for a non-negative integer. *)
Definition decimal (n : N) : str := uint_chars (N.to_uint n).

(** The text stored in the column [status]. *)
Definition status_text (s : Status) : str :=
  match s with
  | pending => lit "pending"
  | completed => lit "completed"
  | failed => lit "failed"
  end.

(** [title or "N/A"] *)
Definition title_or_na (title : option str) : str :=
  match title with
  | Some t => if truthy t then t else lit "N/A"
  | None => lit "N/A"
  end.

(** Lines 363-367. *)
Definition title_display (title : option str) : str :=
  let long :=
    match title with
    | Some t => truthy t && (50 <? length t)
    | None => false
    end in
  if long then slice_to 47 (title_or_na title) ++ lit "..."
  else title_or_na title.

(** The last field of line 369. *)
Definition url_display (url : str) : str :=
  if 40 <? length url then slice_to 37 url ++ lit "..." else url.

(** The line printed for one row (lines 368-370). *)
Definition row_line (r : Row) : str :=
  ljust 5 (decimal (id r)) ++ [32%N] ++
  ljust 12 (status_text (status r)) ++ [32%N] ++
  ljust 50 (title_display (title r)) ++ [32%N] ++
  ljust 40 (url_display (video_url r)).

(** [list_videos], lines 328-370: the strings printed, one per call of
    [print]. *)
Definition list_videos (db : DB) (st : option Status) : list str :=
  let videos :=
    match st with
    | Some s => filter (fun r => Status_eqb (status r) s) (rows db)
    | None => rows db
    end in
  match videos with
  | [] =>
      [ lit "[!] No videos found" ++
        match st with
        | Some s => lit " with status '" ++ status_text s ++ lit "'"
        | None => []
        end ]
  | _ :: _ =>
      ([10%N] ++ ljust 5 (lit "ID") ++ [32%N] ++ ljust 12 (lit "Status") ++ [32%N]
       ++ ljust 50 (lit "Title") ++ [32%N] ++ ljust 40 (lit "URL"))
      :: repeat 61%N 120
      :: map row_line videos
  end.

(** ** The single-video and playlist commands *)

(** How the branch [if args.video:] of [main] ends: skipped, left by
    [sys.exit(1)], or with the result of [download_video]. *)
Inductive VideoOutcome :=
| VideoNotAsked
| VideoInvalid
| VideoDownloaded (result : bool * str).

Section Commands.

Variable output_path_str : str -> str.

(** The branch [if args.video:] of [main], lines 472-488. [video] is
    [args.video], [None] when the option is not given. The branch is
    skipped when [args.video] is falsy; on a URL without a video id it
    prints and calls [sys.exit(1)]; otherwise it stores the job and runs
    [download_video]. The prompts are those of the batch loop. *)
Definition main_video (db : DB) (video : option str) (use_id interactive : bool)
    (clock : nat -> timestamp) (e : ItemIO) : DB * VideoOutcome :=
  match video with
  | None => (db, VideoNotAsked)
  | Some video_url =>
      if truthy video_url then
        match _extract_video_id video_url with
        | Some video_id =>
            let db := fst (add_videos_to_db db [video_url] (lit "Single Video")
                             clock) in
            let use_title := negb use_id in
            let '(custom_name, use_title) := item_naming interactive use_title e in
            let res := download_video output_path_str db video_id video_url
                         custom_name use_title (info e) (dl e) (now e) in
            (fst res, VideoDownloaded (snd res))
        | None => (db, VideoInvalid)
        end
      else (db, VideoNotAsked)
  end.


End Commands.

(** ** Vocabulary of the further properties *)

(** A token the pattern of [_extract_video_id] captures. *)
Definition well_formed_id (v : str) : Prop :=
  length v = 11 /\ forallb is_id_char v = true.

(** The columns no status update writes. *)
Definition row_key (r : Row) : N * str * str * option str * timestamp :=
  (id r, video_url r, video_id r, channel_url r, scraped_at r).

(** Ids are distinct and none exceeds the AUTOINCREMENT counter. *)
Definition ids_fresh (db : DB) : Prop :=
  NoDup (map id (rows db)) /\ Forall (fun r => (id r <= seq db)%N) (rows db).

(** The URLs of the pending jobs in a scope, in insertion order. *)
Definition pending_urls (db : DB) (channel : option str) : list str :=
  map (fun t => snd (fst t)) (get_pending_videos db channel).

(** The batch is not declined. *)
Definition confirmed (skip_confirmation : bool) (answer : str) : Prop :=
  skip_confirmation = true \/ answer = lit "y".

(** What one run of the insertion loop adds. *)
Definition inserted_row (video_urls : list str) (channel : str) (r : Row) : Prop :=
  In (video_url r) video_urls /\
  _extract_video_id (video_url r) = Some (video_id r) /\
  channel_url r = Some channel /\
  status r = pending /\
  title r = None /\ download_path r = None /\ custom_filename r = None /\
  downloaded_at r = None /\ error_msg r = None.

(** The scope test of [get_pending_videos]. *)
Definition in_scope (channel : option str) (r : Row) : bool :=
  match channel with
  | Some c => if truthy c then channel_is c r else true
  | None => true
  end.

(** Ids separated by newlines. *)
Fixpoint join_lines (ids : list str) : str :=
  match ids with
  | [] => []
  | v :: rest =>
      match rest with
      | [] => v
      | _ :: _ => v ++ 10%N :: join_lines rest
      end
  end.

(** * Properties *)

(** ** Lists and statuses *)

Lemma Status_eqb_eq (a b : Status) : Status_eqb a b = true <-> a = b.
Proof. destruct a, b; cbn; split; congruence. Qed.

Lemma Forall2_map_self {A} (R : A -> A -> Prop) (f : A -> A) (l : list A) :
  (forall x, In x l -> R x (f x)) -> Forall2 R l (map f l).
Proof.
  induction l as [|x l IH]; intros H; cbn; constructor.
  - apply H. now left.
  - apply IH. intros y Hy. apply H. now right.
Qed.

(** ** Strings *)

Lemma str_eqb_eq (a b : str) : str_eqb a b = true <-> a = b.
Proof.
  revert b; induction a as [|x a IH]; intros [|y b]; simpl; split;
    try congruence; try reflexivity.
  - intros H. apply andb_true_iff in H as [Hx Hab].
    apply N.eqb_eq in Hx. apply IH in Hab. congruence.
  - intros H. injection H as -> ->. rewrite N.eqb_refl. simpl. now apply IH.
Qed.

Lemma str_eqb_refl (a : str) : str_eqb a a = true.
Proof. now apply str_eqb_eq. Qed.

Lemma str_eqb_neq (a b : str) : str_eqb a b = false <-> a <> b.
Proof.
  split.
  - intros H E. apply str_eqb_eq in E. congruence.
  - intros H. destruct (str_eqb a b) eqn:E; [|reflexivity].
    apply str_eqb_eq in E. contradiction.
Qed.

Lemma lstrip_incl (s : str) : incl (lstrip s) s.
Proof.
  induction s as [|c s IH]; simpl; [apply incl_refl|].
  destruct (isspace c); [now apply incl_tl | apply incl_refl].
Qed.

Lemma lstrip_no_leading (s : str) : starts_with_space (lstrip s) = false.
Proof.
  induction s as [|c s IH]; simpl; [reflexivity|].
  destruct (isspace c) eqn:E; [exact IH | simpl; exact E].
Qed.

Lemma lstrip_fixed (s : str) : starts_with_space s = false -> lstrip s = s.
Proof. destruct s as [|c s]; simpl; [reflexivity | now intros ->]. Qed.

Lemma lstrip_all_space (s : str) :
  forallb isspace s = true -> lstrip s = [].
Proof.
  induction s as [|c s IH]; simpl; [reflexivity|].
  intros H. apply andb_true_iff in H as [-> Hs]. now apply IH.
Qed.

Lemma lstrip_snoc (s : str) (c : char) :
  lstrip (s ++ [c]) =
  match lstrip s with
  | [] => if isspace c then [] else [c]
  | _ :: _ => lstrip s ++ [c]
  end.
Proof.
  induction s as [|x s IH]; simpl; [reflexivity|].
  destruct (isspace x); [exact IH | reflexivity].
Qed.

Lemma rstrip_incl (s : str) : incl (rstrip s) s.
Proof.
  unfold rstrip. intros c Hc. apply in_rev in Hc.
  apply lstrip_incl in Hc. now apply in_rev.
Qed.

Lemma rstrip_no_trailing (s : str) : ends_with_space (rstrip s) = false.
Proof.
  unfold ends_with_space, rstrip. rewrite rev_involutive.
  apply lstrip_no_leading.
Qed.

(** Trimming on the right keeps a first character that is not a space. *)
Lemma rstrip_keeps_head (s : str) :
  starts_with_space s = false -> starts_with_space (rstrip s) = false.
Proof.
  destruct s as [|c s]; [reflexivity|]. simpl. intros Hc.
  unfold rstrip. simpl rev. rewrite lstrip_snoc.
  destruct (lstrip (rev s)) as [|y l] eqn:E.
  - rewrite Hc. simpl. exact Hc.
  - rewrite rev_app_distr. simpl. exact Hc.
Qed.

Lemma strip_incl (s : str) : incl (strip s) s.
Proof.
  unfold strip. eapply incl_tran; [apply rstrip_incl | apply lstrip_incl].
Qed.

Lemma strip_no_leading (s : str) : starts_with_space (strip s) = false.
Proof. apply rstrip_keeps_head, lstrip_no_leading. Qed.

Lemma strip_no_trailing (s : str) : ends_with_space (strip s) = false.
Proof. apply rstrip_no_trailing. Qed.

Lemma strip_all_space (s : str) : forallb isspace s = true -> strip s = [].
Proof. intros H. unfold strip. now rewrite lstrip_all_space. Qed.

Lemma firstn_incl {A} (n : nat) (l : list A) : incl (firstn n l) l.
Proof.
  revert l; induction n as [|n IH]; intros [|x l]; simpl.
  - apply incl_refl.
  - apply incl_nil_l.
  - apply incl_refl.
  - intros z [<-|Hz]; [now left | right; now apply IH].
Qed.

Lemma firstn_keeps_head (n : nat) (s : str) :
  starts_with_space s = false -> starts_with_space (firstn n s) = false.
Proof. destruct n, s; simpl; auto. Qed.

(** ** Sanitization *)

Lemma remove_reserved_clean (s : str) (c : char) :
  In c (remove_reserved s) -> is_reserved c = false.
Proof.
  unfold remove_reserved. intros H. apply filter_In in H as [_ H].
  now apply negb_true_iff in H.
Qed.

Lemma sanitize_incl (s : str) : incl (_sanitize_filename s) (remove_reserved s).
Proof.
  unfold _sanitize_filename, slice_to.
  eapply incl_tran; [apply firstn_incl | apply strip_incl].
Qed.

Lemma sanitize_no_reserved (s : str) :
  Forall (fun c => is_reserved c = false) (_sanitize_filename s).
Proof.
  apply Forall_forall. intros c Hc.
  apply (remove_reserved_clean s), sanitize_incl, Hc.
Qed.

Lemma sanitize_length (s : str) : length (_sanitize_filename s) <= 200.
Proof. unfold _sanitize_filename, slice_to. apply firstn_le_length. Qed.

Lemma sanitize_no_leading (s : str) :
  starts_with_space (_sanitize_filename s) = false.
Proof.
  unfold _sanitize_filename, slice_to.
  apply firstn_keeps_head, strip_no_leading.
Qed.

(** Below the cap nothing was cut, and the trimmed end is kept. *)
Lemma sanitize_short_no_trailing (s : str) :
  length (_sanitize_filename s) < 200 ->
  ends_with_space (_sanitize_filename s) = false.
Proof.
  unfold _sanitize_filename, slice_to. intros H.
  assert (L : length (strip (remove_reserved s)) < 200).
  { rewrite length_firstn in H. lia. }
  rewrite firstn_all2 by lia. apply strip_no_trailing.
Qed.

Lemma sanitize_only_reserved_or_space (s : str) :
  forallb (fun c => is_reserved c || isspace c) s = true ->
  _sanitize_filename s = [].
Proof.
  intros H. unfold _sanitize_filename, slice_to.
  rewrite strip_all_space; [reflexivity|].
  apply forallb_forall. intros c Hc.
  apply filter_In in Hc as [Hin Hr].
  rewrite forallb_forall in H. specialize (H c Hin).
  apply negb_true_iff in Hr. now rewrite Hr in H.
Qed.

(** ** Identity extraction *)

Lemma match_video_id_here_shape (s v : str) :
  match_video_id_here s = Some v ->
  length v = 11 /\ forallb is_id_char v = true.
Proof.
  unfold match_video_id_here.
  destruct s as [|a [|b t]]; try discriminate.
  remember (firstn 11 t) as w eqn:Hw.
  destruct ((a =? 118)%N && (b =? 61)%N && (11 <=? length t)
            && forallb is_id_char w) eqn:E; [|discriminate].
  intros H. injection H as <-.
  rewrite !andb_true_iff in E. destruct E as [[_ L] F].
  split; [|exact F].
  apply Nat.leb_le in L. subst w. rewrite length_firstn. lia.
Qed.

Lemma extract_video_id_cons (c : char) (url : str) :
  _extract_video_id (c :: url) =
  match match_video_id_here (c :: url) with
  | Some v => Some v
  | None => _extract_video_id url
  end.
Proof. reflexivity. Qed.

Lemma extract_video_id_shape (url v : str) :
  _extract_video_id url = Some v ->
  length v = 11 /\ forallb is_id_char v = true.
Proof.
  induction url as [|c url IH].
  - discriminate.
  - rewrite extract_video_id_cons.
    destruct (match_video_id_here (c :: url)) as [w|] eqn:E.
    + intros H. injection H as <-. now apply match_video_id_here_shape in E.
    + exact IH.
Qed.

Lemma id_char_plain (c : char) :
  is_id_char c = true -> is_reserved c = false /\ isspace c = false.
Proof.
  unfold is_id_char. intros H.
  rewrite !orb_true_iff, !andb_true_iff, !N.leb_le, !N.eqb_eq in H.
  split.
  - unfold is_reserved, reserved_chars. simpl.
    rewrite !orb_false_iff, !N.eqb_neq. repeat split; try lia.
  - unfold isspace.
    rewrite !orb_false_iff, !andb_false_iff, !N.leb_gt, !N.eqb_neq.
    repeat split; lia.
Qed.

Example extract_ignores_playlist_parameter :
  _extract_video_id (lit "https://www.youtube.com/watch?v=AAAAAAAAAAA&list=PL1")
  = Some (lit "AAAAAAAAAAA").
Proof. reflexivity. Qed.

Example extract_short_token_absent :
  _extract_video_id (lit "https://www.youtube.com/watch?v=short") = None.
Proof. reflexivity. Qed.

Example sanitize_reserved_title :
  _sanitize_filename (lit "My/Video:Title?") = lit "MyVideoTitle".
Proof. reflexivity. Qed.

Lemma plain_no_edge_space (s : str) :
  (forall c, In c s -> isspace c = false) ->
  starts_with_space s = false /\ ends_with_space s = false.
Proof.
  intros H. split.
  - destruct s as [|c s]; [reflexivity|]. simpl. apply H. now left.
  - unfold ends_with_space. destruct (rev s) as [|c r] eqn:E; [reflexivity|].
    simpl. apply H. apply in_rev. rewrite E. now left.
Qed.

Lemma video_id_safe (url v : str) :
  _extract_video_id url = Some v ->
  Forall (fun c => is_reserved c = false) v /\ length v <= 200 /\
  starts_with_space v = false /\ ends_with_space v = false.
Proof.
  intros H. apply extract_video_id_shape in H as [L F].
  rewrite forallb_forall in F.
  split; [|split; [lia|]].
  - apply Forall_forall. intros c Hc. now apply id_char_plain, F.
  - apply plain_no_edge_space. intros c Hc. now apply id_char_plain, F.
Qed.

Lemma sanitize_safe (s : str) :
  Forall (fun c => is_reserved c = false) (_sanitize_filename s) /\
  length (_sanitize_filename s) <= 200 /\
  starts_with_space (_sanitize_filename s) = false /\
  (length (_sanitize_filename s) < 200 ->
   ends_with_space (_sanitize_filename s) = false).
Proof.
  repeat split.
  - apply sanitize_no_reserved.
  - apply sanitize_length.
  - apply sanitize_no_leading.
  - apply sanitize_short_no_trailing.
Qed.

(** ** Claims on file names *)

(** C9, as the code has it. Whichever branch of [download_video] names the
    file (a custom name, the fetched or fallback title, or the video id
    extracted from a URL), the file name holds none of the nine reserved
    characters, is at most 200 characters long and does not start with
    whitespace; it does not end with whitespace either when it is shorter
    than 200 characters. The cap is applied after the trimming, so a name
    cut at 200 characters can end with whitespace. *)
Theorem C9_filename_safe :
  forall (url video_id : str) (custom_name : option str) (use_title : bool)
         (title : str),
    _extract_video_id url = Some video_id ->
    let f := resolve_filename video_id custom_name use_title title in
    Forall (fun c => is_reserved c = false) f /\
    length f <= 200 /\
    starts_with_space f = false /\
    (length f < 200 -> ends_with_space f = false).
Proof.
  intros url video_id custom_name use_title title Hid f.
  pose proof (video_id_safe url video_id Hid) as (V1 & V2 & V3 & V4).
  assert (Hv : Forall (fun c => is_reserved c = false) video_id /\
               length video_id <= 200 /\ starts_with_space video_id = false /\
               (length video_id < 200 -> ends_with_space video_id = false))
    by (repeat split; auto).
  subst f. unfold resolve_filename.
  destruct custom_name as [c|]; [destruct (truthy c)|];
    try apply sanitize_safe; destruct use_title;
    try apply sanitize_safe; exact Hv.
Qed.

Lemma C9_filename_safe_witness :
  let f := resolve_filename Examples.id_A (Some (lit " My/Video:Title? "))
             true (lit "video_AAAAAAAAAAA") in
  f = lit "MyVideoTitle" /\
  Forall (fun c => is_reserved c = false) f /\
  length f <= 200 /\
  starts_with_space f = false /\
  (length f < 200 -> ends_with_space f = false).
Proof.
  split; [reflexivity|].
  apply (C9_filename_safe Examples.url_A Examples.id_A).
  reflexivity.
Defined.

(** C9 as stated fails: the custom name of 199 letters, a space and one
    more letter is trimmed to itself and then cut to its first 200
    characters, the last of which is the space. *)
Lemma C9_counterexample :
  resolve_filename Examples.id_A (Some Examples.long_name) true (lit "t")
    = repeat 97%N 199 ++ [32%N] /\
  ends_with_space
    (resolve_filename Examples.id_A (Some Examples.long_name) true (lit "t"))
    = true.
Proof. split; vm_compute; reflexivity. Qed.

(** C10. A name made only of reserved characters and whitespace is
    sanitized to the empty string; when such a name is the one the
    orchestrator selects (a non-empty custom name, or the title when no
    custom name is given and titles are in use), the output path of a
    successful download is the download directory joined with [.mp4],
    the same for all of them, and that path is what is stored and
    returned: no other name is put in its place. *)
Theorem C10_empty_filename :
  forall (output_path_str : str -> str) (name : str),
    forallb (fun c => is_reserved c || isspace c) name = true ->
    _sanitize_filename name = [] /\
    (forall db video_id url use_title rc out lines now,
        truthy name = true ->
        download_video output_path_str db video_id url (Some name) use_title
          (InfoExited rc out) (DownloadExited 0 lines) now
        = (_update_video_status db url completed
             (Some (output_path_str (lit ".mp4")))
             (Some (resolve_title video_id rc out)) (Some name) None now,
           (true, output_path_str (lit ".mp4")))) /\
    (forall db video_id url custom_name rc out lines now,
        opt_truthy custom_name = false ->
        resolve_title video_id rc out = name ->
        download_video output_path_str db video_id url custom_name true
          (InfoExited rc out) (DownloadExited 0 lines) now
        = (_update_video_status db url completed
             (Some (output_path_str (lit ".mp4")))
             (Some name) custom_name None now,
           (true, output_path_str (lit ".mp4")))).
Proof.
  intros P name Hname.
  pose proof (sanitize_only_reserved_or_space name Hname) as E.
  split; [exact E|]. split.
  - intros db video_id url use_title rc out lines now Ht.
    unfold download_video, resolve_filename. rewrite Ht, E. reflexivity.
  - intros db video_id url custom_name rc out lines now Hc Ht.
    unfold download_video, resolve_filename. rewrite Ht.
    destruct custom_name as [c|]; simpl in Hc; [rewrite Hc|];
      rewrite E; reflexivity.
Qed.

Lemma C10_empty_filename_witness :
  _sanitize_filename (lit " <>:/|?* ") = [] /\
  snd (download_video Examples.downloads empty_db Examples.id_A Examples.url_A
         (Some (lit " <>:/|?* ")) true (InfoExited 0 (lit "A title"))
         (DownloadExited 0 []) 7%N)
  = (true, lit "downloads/.mp4").
Proof.
  pose proof (C10_empty_filename Examples.downloads (lit " <>:/|?* ")
                eq_refl) as (E & H & _).
  split; [exact E|].
  rewrite (H empty_db Examples.id_A Examples.url_A true 0%Z (lit "A title")
             [] 7%N eq_refl).
  reflexivity.
Defined.

(** ** The job repository: insertion *)

Lemma url_in_spec (url : str) (rs : list Row) :
  url_in url rs = true <-> In url (map video_url rs).
Proof.
  unfold url_in. rewrite existsb_exists, in_map_iff. split.
  - intros (r & Hr & E). apply str_eqb_eq in E. now exists r.
  - intros (r & E & Hr). exists r. split; [exact Hr|]. now apply str_eqb_eq.
Qed.

Lemma url_in_app (url : str) (rs rs' : list Row) :
  url_in url (rs ++ rs') = url_in url rs || url_in url rs'.
Proof. unfold url_in. apply existsb_app. Qed.

Lemma add_one_new (db : DB) (url vid channel : str) (now : timestamp) :
  _extract_video_id url = Some vid ->
  url_in url (rows db) = false ->
  add_one db url channel now
  = ({| rows := rows db ++ [pending_row (seq db + 1) url vid channel now];
        seq := (seq db + 1)%N |}, true).
Proof. intros Hv Hu. unfold add_one, insert_video. now rewrite Hv, Hu. Qed.

Lemma add_one_noop (db : DB) (url channel : str) (now : timestamp) :
  settled db url -> add_one db url channel now = (db, false).
Proof.
  unfold settled, add_one, insert_video. intros [-> | Hu]; [reflexivity|].
  rewrite Hu. now destruct (_extract_video_id url).
Qed.

Lemma add_one_cases (db : DB) (url channel : str) (now : timestamp) :
  (exists vid, _extract_video_id url = Some vid /\
               url_in url (rows db) = false /\
               add_one db url channel now
               = ({| rows := rows db ++
                       [pending_row (seq db + 1) url vid channel now];
                     seq := (seq db + 1)%N |}, true))
  \/ (settled db url /\ add_one db url channel now = (db, false)).
Proof.
  destruct (_extract_video_id url) as [vid|] eqn:Hv.
  - destruct (url_in url (rows db)) eqn:Hu.
    + right. assert (S : settled db url) by now right.
      split; [exact S | now apply add_one_noop].
    + left. exists vid. repeat split; auto. now apply add_one_new.
  - right. assert (S : settled db url) by now left.
    split; [exact S | now apply add_one_noop].
Qed.

Lemma add_one_settled_mono (db : DB) (u url channel : str) (now : timestamp) :
  settled db u -> settled (fst (add_one db url channel now)) u.
Proof.
  intros [Hu | Hu]; [now left|].
  destruct (add_one_cases db url channel now)
    as [(vid & _ & _ & ->) | (_ & ->)]; right; cbn [fst rows]; [|exact Hu].
  rewrite url_in_app, Hu. reflexivity.
Qed.

Lemma add_one_settles (db : DB) (url channel : str) (now : timestamp) :
  settled (fst (add_one db url channel now)) url.
Proof.
  destruct (add_one_cases db url channel now)
    as [(vid & _ & _ & ->) | (S & ->)]; [|exact S].
  right. cbn [fst rows]. rewrite url_in_app. unfold url_in at 2.
  cbn [existsb pending_row video_url].
  rewrite str_eqb_refl. apply orb_true_r.
Qed.

Lemma add_one_unique (db : DB) (url channel : str) (now : timestamp) :
  unique_urls db -> unique_urls (fst (add_one db url channel now)).
Proof.
  intros U.
  destruct (add_one_cases db url channel now)
    as [(vid & _ & Hu & ->) | (_ & ->)]; cbn [fst rows]; [|exact U].
  unfold unique_urls in *. cbn [rows]. rewrite map_app.
  cbn [map pending_row video_url].
  apply NoDup_app; [exact U | repeat constructor; intros [] |].
  intros a Ha [<-|[]].
  apply url_in_spec in Ha. congruence.
Qed.

Lemma add_loop_step (db : DB) (added k : nat) (url : str) (rest : list str)
    (channel : str) (clock : nat -> timestamp) :
  add_loop db added k (url :: rest) channel clock
  = add_loop (fst (add_one db url channel (clock k)))
      (if snd (add_one db url channel (clock k)) then S added else added)
      (S k) rest channel clock.
Proof. simpl. now destruct (add_one db url channel (clock k)). Qed.

Lemma add_loop_settled_mono (urls : list str) :
  forall db added k channel clock u,
    settled db u ->
    settled (fst (add_loop db added k urls channel clock)) u.
Proof.
  induction urls as [|url rest IH]; intros db added k channel clock u S.
  - exact S.
  - rewrite add_loop_step. apply IH. now apply add_one_settled_mono.
Qed.

Lemma add_loop_settles (urls : list str) :
  forall db added k channel clock u,
    In u urls ->
    settled (fst (add_loop db added k urls channel clock)) u.
Proof.
  induction urls as [|url rest IH]; intros db added k channel clock u Hin.
  - destruct Hin.
  - rewrite add_loop_step. destruct Hin as [<-|Hin].
    + apply add_loop_settled_mono, add_one_settles.
    + now apply IH.
Qed.

Lemma add_loop_noop (urls : list str) :
  forall db added k channel clock,
    (forall u, In u urls -> settled db u) ->
    add_loop db added k urls channel clock = (db, added).
Proof.
  induction urls as [|url rest IH]; intros db added k channel clock H.
  - reflexivity.
  - rewrite add_loop_step, add_one_noop by (apply H; now left).
    simpl. apply IH. intros u Hu. apply H. now right.
Qed.

Lemma add_loop_unique (urls : list str) :
  forall db added k channel clock,
    unique_urls db ->
    unique_urls (fst (add_loop db added k urls channel clock)).
Proof.
  induction urls as [|url rest IH]; intros db added k channel clock U.
  - exact U.
  - rewrite add_loop_step. apply IH. now apply add_one_unique.
Qed.

(** C4, as the code has it. One pass of the insertion loop stores a
    pending row, and counts it as added, exactly when the URL has a video
    id and no stored row has the URL; otherwise (no id can be extracted,
    or the URL is stored already) the [IntegrityError] is swallowed, the
    store is unchanged and nothing is counted. The column [video_id] is
    NOT NULL: a URL without an id is never stored. *)
Theorem C4_insert_needs_id_and_new_url :
  forall (db : DB) (url channel : str) (now : timestamp),
    (snd (add_one db url channel now) = true <->
     _extract_video_id url <> None /\ url_in url (rows db) = false) /\
    (forall vid,
        _extract_video_id url = Some vid ->
        url_in url (rows db) = false ->
        add_one db url channel now
        = ({| rows := rows db ++
                [pending_row (seq db + 1) url vid channel now];
              seq := (seq db + 1)%N |}, true)) /\
    (_extract_video_id url = None \/ url_in url (rows db) = true ->
     add_one db url channel now = (db, false)).
Proof.
  intros db url channel now. split; [|split].
  - destruct (add_one_cases db url channel now)
      as [(vid & Hv & Hu & ->) | ([Hv|Hu] & ->)]; simpl; split;
      try discriminate; try tauto; try congruence.
    + intros _. split; congruence.
    + intros [_ H]. congruence.
  - intros vid. apply add_one_new.
  - apply add_one_noop.
Qed.

Lemma C4_insert_needs_id_and_new_url_witness :
  add_one empty_db Examples.url_A (lit "Single Video") 5%N
  = ({| rows := [pending_row 1 Examples.url_A Examples.id_A
                   (lit "Single Video") 5%N];
        seq := 1%N |}, true).
Proof.
  apply (C4_insert_needs_id_and_new_url empty_db Examples.url_A
           (lit "Single Video") 5%N); reflexivity.
Defined.

(** C4 as stated fails: a URL from which no video id can be extracted is
    not stored, and is reported as not added although the store holds no
    row with that URL. *)
Lemma C4_counterexample :
  _extract_video_id (lit "https://www.youtube.com/watch?v=short") = None /\
  url_in (lit "https://www.youtube.com/watch?v=short") (rows empty_db) = false /\
  add_one empty_db (lit "https://www.youtube.com/watch?v=short")
    (lit "channel") 5%N = (empty_db, false).
Proof. repeat split. Qed.

(** C7. On a store whose URLs are unique, running [add_videos_to_db] on
    a list of URLs and then on the same list again (under any label, at
    any time) leaves the store of the first run, adds nothing the second
    time, and the URLs of the store stay unique. *)
Theorem C7_insert_twice_is_insert_once :
  forall (db : DB) (video_urls : list str) (channel channel' : str)
         (clock clock' : nat -> timestamp),
    unique_urls db ->
    let db1 := fst (add_videos_to_db db video_urls channel clock) in
    add_videos_to_db db1 video_urls channel' clock' = (db1, 0) /\
    unique_urls db1.
Proof.
  intros db video_urls channel channel' clock clock' U db1. split.
  - unfold add_videos_to_db. apply add_loop_noop.
    intros u Hu. subst db1. unfold add_videos_to_db.
    now apply add_loop_settles.
  - subst db1. unfold add_videos_to_db. now apply add_loop_unique.
Qed.

Lemma C7_insert_twice_is_insert_once_witness :
  let urls := [Examples.url_A; Examples.url_B; Examples.url_A] in
  let db1 := fst (add_videos_to_db empty_db urls (lit "channel") (fun k => N.of_nat k)) in
  map video_id (rows db1) = [Examples.id_A; Examples.id_B] /\
  add_videos_to_db db1 urls (lit "playlist") (fun k => N.of_nat (10 + k)) = (db1, 0) /\
  unique_urls db1.
Proof.
  split; [reflexivity|].
  apply (C7_insert_twice_is_insert_once empty_db).
  constructor.
Defined.

(** ** Maintenance: deletion *)

Lemma filter_none_selected {A} (f : A -> bool) (l : list A) :
  length (filter f l) = 0 -> filter (fun x => negb (f x)) l = l.
Proof.
  induction l as [|x l IH]; simpl; [reflexivity|].
  destruct (f x); simpl; [discriminate|].
  intros H. now rewrite IH.
Qed.

(** C8. A deletion that is confirmed (or run with confirmation skipped)
    removes exactly the rows its filter names and nothing else: with the
    filter [failed] the rows whose status is failed, likewise for
    [pending] and [completed], and with [all] every row. The rows that
    stay keep all their columns and their order, and the counter is kept.
    When a count is reported it is the number of rows removed, which is
    positive; when no row is named, it reports that no videos were found
    and removes nothing. *)
Theorem C8_delete_exact :
  forall (db : DB) (a : DeleteArg) (skip_confirmation : bool) (answer : str),
    skip_confirmation = true \/ answer = lit "y" ->
    let db' := fst (delete_videos db a skip_confirmation answer) in
    let named := fun r : Row =>
                   match a with
                   | delete_all => True
                   | delete_status s => status r = s
                   end in
    (exists keep : Row -> bool,
        (forall r, keep r = true <-> ~ named r) /\
        rows db' = filter keep (rows db)) /\
    (forall r, In r (rows db') <-> In r (rows db) /\ ~ named r) /\
    (a = delete_all -> rows db' = []) /\
    seq db' = seq db /\
    match snd (delete_videos db a skip_confirmation answer) with
    | Deleted count =>
        count = length (rows db) - length (rows db') /\ 0 < count
    | NoVideosFound =>
        rows db' = rows db /\ forall r, In r (rows db) -> ~ named r
    | DeletionAborted => False
    end.
Proof.
  intros db a skip answer Hc db' named.
  assert (Hgo : negb skip && negb (str_eqb answer (lit "y")) = false).
  { destruct Hc as [-> | ->]; [reflexivity|].
    rewrite str_eqb_refl. apply andb_false_r. }
  assert (K : forall r, negb (selected a r) = true <-> ~ named r).
  { intros r. subst named. rewrite negb_true_iff. destruct a as [|s]; cbn.
    - split; [discriminate | tauto].
    - rewrite <- Status_eqb_eq. now destruct (Status_eqb (status r) s). }
  assert (R : rows db' = filter (fun r => negb (selected a r)) (rows db)).
  { subst db'. unfold delete_videos. rewrite Hgo.
    destruct (length (filter (selected a) (rows db)) =? 0) eqn:E;
      [|reflexivity].
    apply Nat.eqb_eq in E. cbn [fst]. now rewrite filter_none_selected. }
  assert (Q : seq db' = seq db).
  { subst db'. unfold delete_videos. rewrite Hgo.
    now destruct (length (filter (selected a) (rows db)) =? 0). }
  split; [now exists (fun r => negb (selected a r))|].
  split; [intros r; rewrite R, filter_In, K; tauto|].
  split.
  { intros ->. rewrite R. cbn [selected negb]. clear.
    induction (rows db) as [|x l IH]; [reflexivity | exact IH]. }
  split; [exact Q|].
  pose proof (filter_length (selected a) (rows db)) as L.
  rewrite <- R in L. subst db'.
  unfold delete_videos in *. rewrite Hgo in *.
  destruct (length (filter (selected a) (rows db)) =? 0) eqn:E;
    cbn [fst snd rows] in *.
  - apply Nat.eqb_eq in E. split; [reflexivity|].
    intros r Hr. apply K.
    destruct (selected a r) eqn:S; [|reflexivity].
    assert (H : In r (filter (selected a) (rows db)))
      by (apply filter_In; now split).
    destruct (filter (selected a) (rows db)); [destruct H | discriminate E].
  - apply Nat.eqb_neq in E. split; lia.
Qed.

Lemma C8_delete_exact_witness :
  map status (rows Examples.db_mixed) = [completed; failed; pending] /\
  (map status (rows (fst (delete_videos Examples.db_mixed
                            (delete_status failed) false (lit "y"))))
   = [completed; pending] /\
   snd (delete_videos Examples.db_mixed (delete_status failed) false (lit "y"))
   = Deleted 1) /\
  (map status (rows (fst (delete_videos Examples.db_mixed
                            (delete_status pending) true [])))
   = [completed; failed] /\
   forall r, In r (rows (fst (delete_videos Examples.db_mixed
                                (delete_status pending) true [])))
             <-> In r (rows Examples.db_mixed) /\ ~ status r = pending) /\
  (map status (rows (fst (delete_videos Examples.db_mixed
                            (delete_status completed) true [])))
   = [failed; pending] /\
   forall r, In r (rows (fst (delete_videos Examples.db_mixed
                                (delete_status completed) true [])))
             <-> In r (rows Examples.db_mixed) /\ ~ status r = completed) /\
  (rows (fst (delete_videos Examples.db_mixed delete_all true [])) = [] /\
   snd (delete_videos Examples.db_mixed delete_all true []) = Deleted 3).
Proof.
  split; [reflexivity|]. split; [split; reflexivity|].
  split; [split; [reflexivity|]|].
  { apply (C8_delete_exact Examples.db_mixed (delete_status pending) true []).
    now left. }
  split; [split; [reflexivity|]|].
  { apply (C8_delete_exact Examples.db_mixed (delete_status completed) true []).
    now left. }
  split; [|reflexivity].
  apply (C8_delete_exact Examples.db_mixed delete_all true []);
    [now left | reflexivity].
Defined.

(** ** The job repository: status updates *)

Lemma update_row_url url st p t c e now r :
  video_url (update_row url st p t c e now r) = video_url r.
Proof.
  unfold update_row. destruct (str_eqb (video_url r) url); [|reflexivity].
  now destruct st.
Qed.

Lemma update_row_status url st p t c e now r :
  status (update_row url st p t c e now r)
  = if str_eqb (video_url r) url then st else status r.
Proof.
  unfold update_row. destruct (str_eqb (video_url r) url); [|reflexivity].
  now destruct st.
Qed.

Lemma update_row_other url st p t c e now r :
  video_url r <> url -> update_row url st p t c e now r = r.
Proof.
  intros H. apply str_eqb_neq in H. unfold update_row. now rewrite H.
Qed.

Lemma pending_row_consistent i url vid channel now :
  row_consistent (pending_row i url vid channel now).
Proof.
  unfold row_consistent. simpl.
  repeat split; intros; try discriminate; try tauto;
    repeat match goal with H : _ /\ _ |- _ => destruct H end; discriminate.
Qed.

Lemma mark_completed_consistent url path t c now r :
  row_consistent r ->
  (video_url r = url -> status r = pending) ->
  row_consistent (update_row url completed (Some path) (Some t) c None now r).
Proof.
  intros C Hp. unfold update_row.
  destruct (str_eqb (video_url r) url) eqn:E; [|exact C].
  apply str_eqb_eq in E. specialize (Hp E).
  destruct C as (_ & _ & C). apply C in Hp as [_ He].
  unfold row_consistent. simpl. rewrite He.
  repeat split; intros; try discriminate; try tauto;
    repeat match goal with H : _ /\ _ |- _ => destruct H end; discriminate.
Qed.

Lemma mark_failed_consistent url err now r :
  row_consistent r ->
  (video_url r = url -> status r = pending) ->
  row_consistent (update_row url failed None None None (Some err) now r).
Proof.
  intros C Hp. unfold update_row.
  destruct (str_eqb (video_url r) url) eqn:E; [|exact C].
  apply str_eqb_eq in E. specialize (Hp E).
  destruct C as (_ & _ & C). apply C in Hp as [Hd _].
  unfold row_consistent. simpl. rewrite Hd.
  repeat split; intros; try discriminate; try tauto;
    repeat match goal with H : _ /\ _ |- _ => destruct H end; discriminate.
Qed.

Lemma delete_rows_subset db a r :
  In r (rows (fst (delete_videos db a true []))) -> In r (rows db).
Proof.
  unfold delete_videos.
  destruct (length (filter (selected a) (rows db)) =? 0); cbn; [easy|].
  intros H. now apply filter_In in H.
Qed.

Lemma mark_failed_consistent_iff url err now r :
  row_consistent r ->
  (row_consistent (update_row url failed None None None (Some err) now r)
   <-> (video_url r = url -> status r <> completed)).
Proof.
  intros C. unfold update_row.
  destruct (str_eqb (video_url r) url) eqn:E.
  - apply str_eqb_eq in E. unfold row_consistent in *. cbn.
    destruct (status r), (download_path r), (error_msg r); cbn in *;
      intuition (try discriminate; try congruence).
  - apply str_eqb_neq in E. tauto.
Qed.

Lemma mark_completed_consistent_iff url path t c now r :
  row_consistent r ->
  (row_consistent (update_row url completed (Some path) (Some t) c None now r)
   <-> (video_url r = url -> status r <> failed)).
Proof.
  intros C. unfold update_row.
  destruct (str_eqb (video_url r) url) eqn:E.
  - apply str_eqb_eq in E. unfold row_consistent in *. cbn.
    destruct (status r), (download_path r), (error_msg r); cbn in *;
      intuition (try discriminate; try congruence).
  - apply str_eqb_neq in E. tauto.
Qed.

Lemma Forall_map_iff {A} (P Q : A -> Prop) (f : A -> A) (l : list A) :
  (forall x, In x l -> (P (f x) <-> Q x)) ->
  (Forall P (map f l) <-> forall x, In x l -> Q x).
Proof.
  intros H. rewrite Forall_forall. split.
  - intros F x Hx. apply H; [exact Hx|]. apply F. now apply in_map.
  - intros F y Hy. apply in_map_iff in Hy as (x & <- & Hx).
    apply H; [exact Hx | now apply F].
Qed.

(** C1, as the code has it. In a store whose rows satisfy the three
    biconditionals, they hold again after an insertion, after a deletion,
    and after a status update exactly when the update does not find its
    row in the other terminal state: they fail after marking a completed
    row failed or a failed row completed, and only then. The updates
    clear nothing. Marking failed writes the status and [error_msg] of
    the rows with the given URL and leaves every other column, and every
    other row, as it was; marking completed writes the status,
    [download_path], [title], [custom_filename] and [downloaded_at] and
    leaves [error_msg] and the remaining columns as they were. *)
Theorem C1_consistent_unless_marked_across :
  forall (db : DB) (op : RepoOp),
    Forall row_consistent (rows db) ->
    (Forall row_consistent (rows (apply_op db op)) <-> mark_fits db op) /\
    (forall url error now,
        op = OpMarkFailed url error now ->
        Forall2
          (fun r r' =>
             (video_url r = url ->
              r' = {| id := id r; video_url := video_url r;
                      video_id := video_id r; title := title r;
                      channel_url := channel_url r; status := failed;
                      download_path := download_path r;
                      custom_filename := custom_filename r;
                      scraped_at := scraped_at r;
                      downloaded_at := downloaded_at r;
                      error_msg := Some error |}) /\
             (video_url r <> url -> r' = r))
          (rows db) (rows (apply_op db op))) /\
    (forall url path t c now,
        op = OpMarkCompleted url path t c now ->
        Forall2
          (fun r r' =>
             (video_url r = url ->
              r' = {| id := id r; video_url := video_url r;
                      video_id := video_id r; title := Some t;
                      channel_url := channel_url r; status := completed;
                      download_path := Some path;
                      custom_filename := c;
                      scraped_at := scraped_at r;
                      downloaded_at := Some now;
                      error_msg := error_msg r |}) /\
             (video_url r <> url -> r' = r))
          (rows db) (rows (apply_op db op))).
Proof.
  intros db op C. split; [|split].
  - destruct op as [url channel now | url path t c now | url err now | a];
      cbn [apply_op mark_fits].
    + split; [tauto|]. intros _.
      destruct (add_one_cases db url channel now)
        as [(vid & _ & _ & ->) | (_ & ->)]; cbn [fst rows]; [|exact C].
      apply Forall_app. split; [exact C|].
      constructor; [apply pending_row_consistent | constructor].
    + cbn [_update_video_status rows]. apply Forall_map_iff.
      intros r Hr. apply mark_completed_consistent_iff.
      rewrite Forall_forall in C. now apply C.
    + cbn [_update_video_status rows]. apply Forall_map_iff.
      intros r Hr. apply mark_failed_consistent_iff.
      rewrite Forall_forall in C. now apply C.
    + split; [tauto|]. intros _. rewrite Forall_forall in *. intros r Hr.
      now apply C, (delete_rows_subset db a).
  - intros url error now ->. cbn [apply_op _update_video_status rows].
    apply Forall2_map_self. intros r _. unfold update_row. split.
    + intros E. apply str_eqb_eq in E. now rewrite E.
    + intros E. apply str_eqb_neq in E. now rewrite E.
  - intros url path t c now ->. cbn [apply_op _update_video_status rows].
    apply Forall2_map_self. intros r _. unfold update_row. split.
    + intros E. apply str_eqb_eq in E. now rewrite E.
    + intros E. apply str_eqb_neq in E. now rewrite E.
Qed.

Lemma C1_consistent_unless_marked_across_witness :
  map status (rows Examples.db_mixed) = [completed; failed; pending] /\
  Forall row_consistent
    (rows (apply_op Examples.db_mixed
             (OpMarkFailed Examples.url_B (lit "ERROR: again") 9%N))) /\
  ~ Forall row_consistent
      (rows (apply_op Examples.db_mixed
               (OpMarkFailed Examples.url_A (lit "ERROR: network") 9%N))).
Proof.
  assert (C : Forall row_consistent (rows Examples.db_mixed)).
  { repeat constructor; cbn; intros; try discriminate; try tauto;
      repeat match goal with H : _ /\ _ |- _ => destruct H end; discriminate. }
  split; [reflexivity|]. split.
  - apply (C1_consistent_unless_marked_across Examples.db_mixed
             (OpMarkFailed Examples.url_B (lit "ERROR: again") 9%N) C).
    intros r Hr E. cbn in Hr.
    destruct Hr as [<-|[<-|[<-|[]]]]; first [discriminate E | discriminate].
  - intros F.
    apply (C1_consistent_unless_marked_across Examples.db_mixed
             (OpMarkFailed Examples.url_A (lit "ERROR: network") 9%N) C) in F.
    cbn [mark_fits] in F.
    apply (F (hd (pending_row 0 [] [] [] 0%N) (rows Examples.db_mixed)));
      [now left | reflexivity | reflexivity].
Defined.

(** C1 as stated fails: a row that was marked completed and is then marked
    failed has status failed while its [download_path] is still set. *)
Lemma C1_counterexample :
  map (fun r => (status r, download_path r, error_msg r))
    (rows Examples.db_A_completed)
  = [(completed, Some (lit "downloads/Title.mp4"), None)] /\
  map (fun r => (status r, download_path r, error_msg r))
    (rows Examples.db_A_failed)
  = [(failed, Some (lit "downloads/Title.mp4"), Some (lit "ERROR: network"))].
Proof. split; vm_compute; reflexivity. Qed.

Lemma find_url_none (url : str) (rs : list Row) :
  ~ In url (map video_url rs) ->
  find (fun r => str_eqb (video_url r) url) rs = None.
Proof.
  intros H.
  destruct (find (fun r => str_eqb (video_url r) url) rs) as [r|] eqn:E;
    [|reflexivity].
  apply find_some in E as [Hin E]. apply str_eqb_eq in E.
  exfalso. apply H. rewrite <- E. now apply in_map.
Qed.

Lemma find_url_filter (url : str) (g : Row -> bool) (rs : list Row) :
  NoDup (map video_url rs) ->
  find (fun r => str_eqb (video_url r) url) (filter g rs)
  = find (fun r => str_eqb (video_url r) url) rs
  \/ find (fun r => str_eqb (video_url r) url) (filter g rs) = None.
Proof.
  induction rs as [|r0 rs IH]; intros U; [now left|].
  simpl in U. apply NoDup_cons_iff in U as [Hn U].
  simpl. destruct (str_eqb (video_url r0) url) eqn:E.
  - destruct (g r0); simpl; [rewrite E; now left|].
    right. apply find_url_none. apply str_eqb_eq in E. subst url.
    intros Hin. apply Hn. apply in_map_iff in Hin as (r & Er & Hr).
    apply filter_In in Hr as [Hr _]. rewrite <- Er. now apply in_map.
  - destruct (g r0); simpl; [rewrite E|]; now apply IH.
Qed.

Lemma status_of_update db u st p t c e now url :
  status_of (_update_video_status db u st p t c e now) url
  = if str_eqb url u then option_map (fun _ => st) (status_of db url)
    else status_of db url.
Proof.
  unfold status_of, _update_video_status. cbn [rows].
  induction (rows db) as [|r rs IH]; simpl.
  - now destruct (str_eqb url u).
  - rewrite update_row_url. destruct (str_eqb (video_url r) url) eqn:E.
    + simpl. rewrite update_row_status. apply str_eqb_eq in E. subst url.
      now destruct (str_eqb (video_url r) u).
    + exact IH.
Qed.

Lemma find_app_found {A} (f : A -> bool) (l l' : list A) (x : A) :
  find f l = Some x -> find f (l ++ l') = Some x.
Proof.
  induction l as [|y l IH]; simpl; [discriminate|].
  now destruct (f y).
Qed.

Lemma status_of_add_one db u channel now url s :
  status_of db url = Some s ->
  status_of (fst (add_one db u channel now)) url = Some s.
Proof.
  intros H.
  destruct (add_one_cases db u channel now)
    as [(vid & _ & _ & ->) | (_ & ->)]; cbn [fst]; [|exact H].
  unfold status_of in *. cbn [rows].
  destruct (find (fun r => str_eqb (video_url r) url) (rows db)) as [r|] eqn:F;
    [|discriminate].
  now rewrite (find_app_found _ _ _ _ F).
Qed.

Lemma status_of_delete db a url :
  unique_urls db ->
  status_of (fst (delete_videos db a true [])) url = status_of db url
  \/ status_of (fst (delete_videos db a true [])) url = None.
Proof.
  intros U. unfold delete_videos.
  destruct (length (filter (selected a) (rows db)) =? 0); cbn [fst negb andb];
    [now left|].
  unfold status_of. cbn [rows].
  destruct (find_url_filter url (fun r => negb (selected a r)) (rows db) U)
    as [-> | ->]; [now left | now right].
Qed.

(** C2, as the code has it. [_update_video_status] writes the status of
    the row it names whatever the row's current status. So a job in a
    terminal state keeps its status under every operation that does not
    name its URL, never goes back to pending, and disappears only by a
    deletion; but a later status update naming its URL overwrites a
    terminal status with the one written. *)
Theorem C2_terminal_overwritten_only_by_update :
  forall (db : DB) (op : RepoOp) (url : str) (s : Status),
    unique_urls db ->
    status_of db url = Some s ->
    s <> pending ->
    (status_of (apply_op db op) url = None /\ exists a, op = OpDelete a)
    \/ (exists s',
          status_of (apply_op db op) url = Some s' /\
          s' <> pending /\
          (marked_url op = Some url -> marked_status op = Some s') /\
          (marked_url op <> Some url -> s' = s)).
Proof.
  intros db op url s U Hs Hp.
  destruct op as [u channel now | u path t c now | u err now | a];
    cbn [apply_op marked_url marked_status].
  - right. exists s. split; [now apply status_of_add_one|].
    repeat split; auto; discriminate.
  - right. rewrite status_of_update, Hs. cbn [option_map].
    destruct (str_eqb url u) eqn:E.
    + exists completed. repeat split; try discriminate.
      intros H. exfalso. apply H. apply str_eqb_eq in E. now subst.
    + exists s. repeat split; auto.
      intros H. injection H as ->. now rewrite str_eqb_refl in E.
  - right. rewrite status_of_update, Hs. cbn [option_map].
    destruct (str_eqb url u) eqn:E.
    + exists failed. repeat split; try discriminate.
      intros H. exfalso. apply H. apply str_eqb_eq in E. now subst.
    + exists s. repeat split; auto.
      intros H. injection H as ->. now rewrite str_eqb_refl in E.
  - destruct (status_of_delete db a url U) as [H | H].
    + right. exists s. rewrite H. repeat split; auto; discriminate.
    + left. split; [exact H | now exists a].
Qed.

Lemma C2_terminal_overwritten_only_by_update_witness :
  (status_of (apply_op Examples.db_mixed
                (OpMarkFailed Examples.url_B (lit "again") 9%N))
     Examples.url_A = None /\
   exists a, OpMarkFailed Examples.url_B (lit "again") 9%N = OpDelete a)
  \/ (exists s',
        status_of (apply_op Examples.db_mixed
                     (OpMarkFailed Examples.url_B (lit "again") 9%N))
          Examples.url_A = Some s' /\
        s' <> pending /\
        (marked_url (OpMarkFailed Examples.url_B (lit "again") 9%N)
         = Some Examples.url_A ->
         marked_status (OpMarkFailed Examples.url_B (lit "again") 9%N)
         = Some s') /\
        (marked_url (OpMarkFailed Examples.url_B (lit "again") 9%N)
         <> Some Examples.url_A -> s' = completed)).
Proof.
  apply (C2_terminal_overwritten_only_by_update Examples.db_mixed
           (OpMarkFailed Examples.url_B (lit "again") 9%N)
           Examples.url_A completed).
  - unfold unique_urls. vm_compute.
    repeat (constructor; [simpl; intuition discriminate|]). constructor.
  - reflexivity.
  - discriminate.
Defined.

(** C2 as stated fails: the single-video command run a second time on a
    URL whose job is completed, with the download failing, moves the job
    from completed to failed. *)
Lemma C2_counterexample :
  status_of Examples.db_A_completed Examples.url_A = Some completed /\
  Examples.db_A_failed
  = _update_video_status Examples.db_A_completed Examples.url_A failed
      None None None (Some (lit "ERROR: network")) 4%N /\
  status_of Examples.db_A_failed Examples.url_A = Some failed.
Proof. repeat split. Qed.

(** ** The download orchestrator *)

Lemma slice_last_min {A} (l : list A) :
  slice_last (min (length l) 10) l = slice_last 10 l.
Proof. unfold slice_last. f_equal. lia. Qed.

Lemma slice_last_length {A} (k : nat) (l : list A) :
  k <= length l -> length (slice_last k l) = k.
Proof. intros H. unfold slice_last. rewrite length_skipn. lia. Qed.

Lemma slice_to_length (n : nat) (s : str) : length (slice_to n s) <= n.
Proof. unfold slice_to. apply firstn_le_length. Qed.

(** A failed [download_video] went through one of the failure paths, with
    a bounded error detail. *)
Lemma download_video_failure P db vid url custom use_title info dl now :
  fst (snd (download_video P db vid url custom use_title info dl now)) = false ->
  exists err,
    download_video P db vid url custom use_title info dl now
    = fail_with db url err now /\ length err <= 500.
Proof.
  unfold download_video.
  destruct info as [|msg|rc out].
  - intros _. exists (lit "Download timeout"). split; [reflexivity|].
    cbn. lia.
  - intros _. exists (slice_to 500 msg).
    split; [reflexivity | apply slice_to_length].
  - destruct dl as [msg|rc' lines].
    + intros _. exists (slice_to 500 msg).
      split; [reflexivity | apply slice_to_length].
    + destruct (rc' =? 0)%Z; [discriminate|].
      intros _. eexists. split; [reflexivity | apply slice_to_length].
Qed.

Lemma marked_failed_rows db url err now :
  (forall r, In r (rows db) -> video_url r = url ->
     exists r', In r' (rows (_update_video_status db url failed None None None
                               (Some err) now)) /\
                id r' = id r /\ status r' = failed /\ error_msg r' = Some err) /\
  (forall r', In r' (rows (_update_video_status db url failed None None None
                             (Some err) now)) ->
     video_url r' = url -> status r' = failed /\ error_msg r' = Some err).
Proof.
  cbn [_update_video_status rows]. split.
  - intros r Hr E.
    exists (update_row url failed None None None (Some err) now r).
    split; [now apply in_map|].
    unfold update_row. apply str_eqb_eq in E. rewrite E. now cbn.
  - intros r' Hr' E. apply in_map_iff in Hr' as (r & <- & _).
    rewrite update_row_url in E. unfold update_row.
    apply str_eqb_eq in E. rewrite E. now cbn.
Qed.

(** C5. Whenever [download_video] reports a failure, the error detail it
    stores and returns is at most 500 characters long, and every row with
    the job's URL then has status failed and that detail. When the
    download process exits with a non-zero code after [N] lines of
    output, the detail is the concatenation of the last [min N 10] lines
    cut to its first 500 characters: that text is returned with the
    failure flag and stored in [error_msg] of the job, whose status
    becomes failed. *)
Theorem C5_error_detail_bounded :
  forall (output_path_str : str -> str) (db : DB) (video_id url : str)
         (custom_name : option str) (use_title : bool)
         (info : InfoRun) (dl : DownloadRun) (now : timestamp),
    let res := download_video output_path_str db video_id url custom_name
                 use_title info dl now in
    (fst (snd res) = false ->
     let err := snd (snd res) in
     length err <= 500 /\
     fst res = _update_video_status db url failed None None None (Some err) now /\
     (forall r, In r (rows db) -> video_url r = url ->
        exists r', In r' (rows (fst res)) /\ id r' = id r /\
                   status r' = failed /\ error_msg r' = Some err) /\
     (forall r', In r' (rows (fst res)) -> video_url r' = url ->
        status r' = failed /\ error_msg r' = Some err)) /\
    (forall rc out rc' lines,
        info = InfoExited rc out ->
        dl = DownloadExited rc' lines ->
        rc' <> 0%Z ->
        let n := Nat.min (length lines) 10 in
        let last_lines := skipn (length lines - n) lines in
        let detail := firstn 500 (concat last_lines) in
        length last_lines = n /\
        snd res = (false, detail) /\
        (forall r, In r (rows db) -> video_url r = url ->
           exists r', In r' (rows (fst res)) /\ id r' = id r /\
                      status r' = failed /\ error_msg r' = Some detail) /\
        (forall r', In r' (rows (fst res)) -> video_url r' = url ->
           status r' = failed /\ error_msg r' = Some detail)).
Proof.
  intros P db vid url custom use_title info dl now res. split.
  - intros Hf err.
    destruct (download_video_failure P db vid url custom use_title info dl now Hf)
      as (e & E & L).
    subst err res. rewrite E. cbn [fail_with fst snd].
    split; [exact L|]. split; [reflexivity|].
    apply marked_failed_rows.
  - intros rc out rc' lines -> -> Hrc n last_lines detail.
    assert (T : last_lines = slice_last 10 lines).
    { subst last_lines n. rewrite <- slice_last_min. reflexivity. }
    assert (E : res = fail_with db url detail now).
    { subst res detail. rewrite T. unfold download_video.
      apply Z.eqb_neq in Hrc. now rewrite Hrc. }
    split.
    + subst last_lines n. rewrite length_skipn.
      destruct (Nat.min_spec (length lines) 10) as [[? ->] | [? ->]]; lia.
    + rewrite E. cbn [fail_with fst snd]. split; [reflexivity|].
      apply marked_failed_rows.
Qed.

Lemma C5_error_detail_bounded_witness :
  let lines :=
    [lit "L01;"; lit "L02;"; lit "L03;"; lit "L04;"; lit "L05;";
     lit "L06;"; lit "L07;"; lit "L08;"; lit "L09;"; lit "L10;";
     lit "L11;"; lit "L12;"; lit "L13;"; lit "L14;"; lit "L15;"] in
  let res := download_video Examples.downloads Examples.db_A_pending
               Examples.id_A Examples.url_A None true
               (InfoExited 0 (lit "Title")) (DownloadExited 1 lines) 2%N in
  let long := repeat (repeat 120%N 60) 12 in
  let res' := download_video Examples.downloads Examples.db_A_pending
                Examples.id_A Examples.url_A None true
                (InfoExited 0 (lit "Title")) (DownloadExited 2 long) 2%N in
  (snd res = (false, lit "L06;L07;L08;L09;L10;L11;L12;L13;L14;L15;") /\
   map (fun r => (status r, error_msg r)) (rows (fst res))
   = [(failed, Some (lit "L06;L07;L08;L09;L10;L11;L12;L13;L14;L15;"))]) /\
  (snd res' = (false, repeat 120%N 500) /\
   map (fun r => (status r, error_msg r)) (rows (fst res'))
   = [(failed, Some (repeat 120%N 500))]).
Proof.
  intros lines res long res'.
  assert (H1 : 1%Z <> 0%Z) by discriminate.
  assert (H2 : 2%Z <> 0%Z) by discriminate.
  pose proof (C5_error_detail_bounded Examples.downloads Examples.db_A_pending
                Examples.id_A Examples.url_A None true
                (InfoExited 0 (lit "Title")) (DownloadExited 1 lines) 2%N)
    as [_ A].
  destruct (A 0%Z (lit "Title") 1%Z lines eq_refl eq_refl H1) as (_ & A1 & _).
  pose proof (C5_error_detail_bounded Examples.downloads Examples.db_A_pending
                Examples.id_A Examples.url_A None true
                (InfoExited 0 (lit "Title")) (DownloadExited 2 long) 2%N)
    as [_ B].
  destruct (B 0%Z (lit "Title") 2%Z long eq_refl eq_refl H2) as (_ & B1 & _).
  split; (split; [|vm_compute; reflexivity]).
  - exact A1.
  - exact B1.
Defined.

(** C3, as the code has it. When the title query exits with a non-zero
    code, the title is the fallback [video_] followed by the video id and
    the download goes on: a successful download is recorded as completed
    under that title, and the job is marked failed only if the download
    itself fails. When the title query exceeds its timeout,
    [subprocess.run] raises [TimeoutExpired], which the handler of
    line 240 catches: the job is marked failed with the detail
    [Download timeout] and no download is attempted. *)
Theorem C3_title_fallback_on_nonzero_exit :
  forall (output_path_str : str -> str) (db : DB) (video_id url : str)
         (custom_name : option str) (use_title : bool)
         (rc : Z) (out : str) (dl : DownloadRun) (now : timestamp),
    rc <> 0%Z ->
    let title := lit "video_" ++ video_id in
    let path := output_path_str
                  (resolve_filename video_id custom_name use_title title
                   ++ lit ".mp4") in
    resolve_title video_id rc out = title /\
    (forall lines,
        download_video output_path_str db video_id url custom_name use_title
          (InfoExited rc out) (DownloadExited 0 lines) now
        = (_update_video_status db url completed (Some path) (Some title)
             custom_name None now,
           (true, path))) /\
    (fst (snd (download_video output_path_str db video_id url custom_name
                 use_title (InfoExited rc out) dl now)) = false ->
     match dl with
     | DownloadRaised _ => True
     | DownloadExited rc' _ => rc' <> 0%Z
     end) /\
    download_video output_path_str db video_id url custom_name use_title
      InfoTimeout dl now
    = fail_with db url (lit "Download timeout") now.
Proof.
  intros P db vid url custom use_title rc out dl now Hrc title path.
  assert (T : resolve_title vid rc out = title).
  { unfold resolve_title. apply Z.eqb_neq in Hrc. now rewrite Hrc. }
  split; [exact T|]. split; [|split].
  - intros lines. unfold download_video. rewrite T. reflexivity.
  - unfold download_video. destruct dl as [msg|rc' lines]; [easy|].
    destruct (rc' =? 0)%Z eqn:E; [discriminate|].
    intros _. now apply Z.eqb_neq.
  - reflexivity.
Qed.

Lemma C3_title_fallback_on_nonzero_exit_witness :
  download_video Examples.downloads Examples.db_A_pending Examples.id_A
    Examples.url_A None true (InfoExited 1 []) (DownloadExited 0 []) 2%N
  = (_update_video_status Examples.db_A_pending Examples.url_A completed
       (Some (lit "downloads/video_AAAAAAAAAAA.mp4"))
       (Some (lit "video_AAAAAAAAAAA")) None None 2%N,
     (true, lit "downloads/video_AAAAAAAAAAA.mp4")).
Proof.
  assert (H : 1%Z <> 0%Z) by discriminate.
  pose proof (C3_title_fallback_on_nonzero_exit Examples.downloads
                Examples.db_A_pending Examples.id_A Examples.url_A None true
                1%Z [] (DownloadExited 0 []) 2%N H) as (_ & E & _).
  exact (E []).
Defined.

(** C3 as stated fails: when the title query times out, the pending job is
    marked failed with the detail [Download timeout], whatever the
    download would have done. *)
Lemma C3_counterexample :
  status_of Examples.db_A_pending Examples.url_A = Some pending /\
  snd (download_video Examples.downloads Examples.db_A_pending Examples.id_A
         Examples.url_A None true InfoTimeout (DownloadExited 0 []) 2%N)
  = (false, lit "Download timeout") /\
  map (fun r => (status r, error_msg r))
    (rows (fst (download_video Examples.downloads Examples.db_A_pending
                  Examples.id_A Examples.url_A None true InfoTimeout
                  (DownloadExited 0 []) 2%N)))
  = [(failed, Some (lit "Download timeout"))].
Proof. repeat split. Qed.

(** ** The batch runner *)

Lemma item_naming_false (interactive : bool) (e : ItemIO) :
  snd (item_naming interactive false e) = false.
Proof.
  unfold item_naming. destruct interactive; [|reflexivity].
  destruct (str_eqb (choice e) (lit "n")); [reflexivity|].
  now destruct (str_eqb (choice e) (lit "custom")).
Qed.

(** Once [use_title] is false it stays false to the end of the batch,
    whatever is answered afterwards. *)
Lemma batch_loop_use_title_false (P : str -> str) (interactive : bool)
    (io : nat -> ItemIO) (videos : list (N * str * str)) :
  forall db k,
    Forall (fun c => call_use_title c = false)
      (snd (batch_loop P db false interactive k videos io)).
Proof.
  induction videos as [|[[i url] vid] rest IH]; intros db k; cbn [batch_loop].
  - constructor.
  - pose proof (item_naming_false interactive (io k)) as F.
    destruct (item_naming interactive false (io k)) as [custom ut].
    cbn [snd] in F. subst ut.
    destruct (download_video P db vid url custom false (info (io k))
                (dl (io k)) (now (io k))) as [db' res].
    specialize (IH db' (S k)).
    destruct (batch_loop P db' false interactive (S k) rest io) as [db'' calls].
    cbn [snd] in *. constructor; [reflexivity | exact IH].
Qed.

(** The custom name of an item comes from the answers given at that item
    alone. *)
Lemma item_custom_name_local (interactive ut ut' : bool) (e : ItemIO) :
  fst (item_naming interactive ut e) = fst (item_naming interactive ut' e).
Proof.
  unfold item_naming. destruct interactive; [|reflexivity].
  destruct (str_eqb (choice e) (lit "n")); [reflexivity|].
  now destruct (str_eqb (choice e) (lit "custom")).
Qed.

(** C6, the code at the failing input. In an interactive batch of two
    pending videos started with titles in use, the answer [n] at the
    first item assigns the variable [use_title] of the whole loop: the
    second item, answered [y], is downloaded with [use_title = False] and
    stored under its video id. With [y] at the first item the same second
    item, answered [y] too, is stored under its title. *)
Theorem C6_answer_n_persists :
  map (fun c => (call_custom_name c, call_use_title c))
    (snd (download_all_pending Examples.downloads Examples.db_two_pending
            true true None true [] Examples.io_n_then_y))
  = [(None, false); (None, false)] /\
  map (fun c => (call_custom_name c, call_use_title c))
    (snd (download_all_pending Examples.downloads Examples.db_two_pending
            true true None true [] Examples.io_y_then_y))
  = [(None, true); (None, true)] /\
  map download_path
    (rows (fst (download_all_pending Examples.downloads Examples.db_two_pending
                  true true None true [] Examples.io_n_then_y)))
  = [Some (lit "downloads/AAAAAAAAAAA.mp4");
     Some (lit "downloads/BBBBBBBBBBB.mp4")] /\
  map download_path
    (rows (fst (download_all_pending Examples.downloads Examples.db_two_pending
                  true true None true [] Examples.io_y_then_y)))
  = [Some (lit "downloads/First.mp4"); Some (lit "downloads/Second.mp4")].
Proof. repeat split; vm_compute; reflexivity. Qed.

(** * Further properties *)

(** ** Identity extraction *)

Lemma match_video_id_here_intro (v post : str) :
  well_formed_id v ->
  match_video_id_here (lit "v=" ++ v ++ post) = Some v.
Proof.
  intros [L F]. change (lit "v=" ++ v ++ post) with (118%N :: 61%N :: v ++ post).
  unfold match_video_id_here.
  assert (E : firstn 11 (v ++ post) = v).
  { rewrite firstn_app, L, Nat.sub_diag, firstn_O, app_nil_r.
    rewrite <- L. apply firstn_all. }
  rewrite E, F, !N.eqb_refl.
  replace (11 <=? length (v ++ post)) with true; [reflexivity|].
  symmetry. apply Nat.leb_le. rewrite length_app. lia.
Qed.

Lemma match_video_id_here_elim (s v : str) :
  match_video_id_here s = Some v ->
  well_formed_id v /\ exists post, s = lit "v=" ++ v ++ post.
Proof.
  intros H. split; [now apply match_video_id_here_shape in H|].
  unfold match_video_id_here in H.
  destruct s as [|a [|b t]]; try discriminate.
  remember (firstn 11 t) as w eqn:Hw.
  destruct ((a =? 118)%N && (b =? 61)%N && (11 <=? length t)
            && forallb is_id_char w) eqn:E; [|discriminate].
  injection H as <-.
  rewrite !andb_true_iff, !N.eqb_eq in E. destruct E as [[[-> ->] _] _].
  exists (skipn 11 t). subst w.
  change (lit "v=" ++ firstn 11 t ++ skipn 11 t)
    with (118%N :: 61%N :: firstn 11 t ++ skipn 11 t).
  now rewrite firstn_skipn.
Qed.

Lemma match_video_id_here_not_v (c : char) (s : str) :
  c <> 118%N -> match_video_id_here (c :: s) = None.
Proof.
  intros H. unfold match_video_id_here. destruct s as [|b t]; [reflexivity|].
  apply N.eqb_neq in H. now rewrite H.
Qed.

Lemma extract_video_id_skip (pre s : str) :
  ~ In 118%N pre -> _extract_video_id (pre ++ s) = _extract_video_id s.
Proof.
  induction pre as [|c pre IH]; intros H; [reflexivity|].
  rewrite <- app_comm_cons, extract_video_id_cons.
  rewrite match_video_id_here_not_v by (intros ->; apply H; now left).
  apply IH. intros Hin. apply H. now right.
Qed.

Lemma extract_video_id_here (v post : str) :
  well_formed_id v -> _extract_video_id (lit "v=" ++ v ++ post) = Some v.
Proof.
  intros W. pose proof (match_video_id_here_intro v post W) as M.
  transitivity
    (match match_video_id_here (lit "v=" ++ v ++ post) with
     | Some x => Some x
     | None => _extract_video_id (61%N :: v ++ post)
     end); [reflexivity|].
  now rewrite M.
Qed.

(** X1. A well-formed id written after [v=] is read back: when no letter
    [v] precedes the parameter, the id extracted from the URL is the one
    that was written, whatever follows it. *)
Theorem extract_reads_back_written_id :
  forall (pre v rest : str),
    ~ In 118%N pre ->
    well_formed_id v ->
    _extract_video_id (pre ++ lit "v=" ++ v ++ rest) = Some v.
Proof.
  intros pre v rest Hpre W.
  rewrite extract_video_id_skip by exact Hpre.
  now apply extract_video_id_here.
Qed.

Lemma no_v_in_watch_prefix : ~ In 118%N (lit "https://www.youtube.com/watch?").
Proof.
  intros H. apply (In_nth _ _ 0%N) in H as (n & Hn & E).
  cbn in Hn.
  do 31 (destruct n as [|n]; [discriminate E|]).
  lia.
Qed.

Lemma extract_reads_back_written_id_witness :
  _extract_video_id
    (lit "https://www.youtube.com/watch?" ++ lit "v=" ++ lit "AAAAAAAAAAA"
     ++ lit "&list=PL1")
  = Some (lit "AAAAAAAAAAA").
Proof.
  apply extract_reads_back_written_id.
  - exact no_v_in_watch_prefix.
  - split; reflexivity.
Defined.

(** X2. Extraction is exact. An extracted id is well formed and stands in
    the URL right after an occurrence of [v=]; and the result is [None]
    only when the URL holds no [v=] followed by eleven id characters
    anywhere. *)
Theorem extract_sound_and_complete :
  forall (url : str),
    match _extract_video_id url with
    | Some v =>
        well_formed_id v /\ exists pre post, url = pre ++ lit "v=" ++ v ++ post
    | None =>
        forall pre v post,
          well_formed_id v -> url <> pre ++ lit "v=" ++ v ++ post
    end.
Proof.
  induction url as [|c url IH].
  - cbn. intros pre v post _ H. destruct pre; discriminate H.
  - rewrite extract_video_id_cons.
    destruct (match_video_id_here (c :: url)) as [w|] eqn:M.
    + apply match_video_id_here_elim in M as [W [post E]].
      split; [exact W|]. exists [], post. exact E.
    + destruct (_extract_video_id url) as [v|].
      * destruct IH as [W (pre & post & ->)].
        split; [exact W|]. now exists (c :: pre), post.
      * intros pre v post W E. destruct pre as [|c' pre].
        -- cbn [app] in E. rewrite E in M.
           now rewrite match_video_id_here_intro in M.
        -- injection E as _ E. now apply (IH pre v post W).
Qed.

(** ** Sanitization *)

Lemma remove_reserved_fixed (s : str) :
  Forall (fun c => is_reserved c = false) s -> remove_reserved s = s.
Proof.
  unfold remove_reserved. induction 1 as [|c s Hc _ IH]; [reflexivity|].
  simpl. now rewrite Hc, IH.
Qed.

Lemma rstrip_fixed (s : str) : ends_with_space s = false -> rstrip s = s.
Proof.
  unfold ends_with_space, rstrip. intros H.
  rewrite lstrip_fixed by exact H. apply rev_involutive.
Qed.

Lemma strip_fixed (s : str) :
  starts_with_space s = false -> ends_with_space s = false -> strip s = s.
Proof.
  intros H1 H2. unfold strip. rewrite lstrip_fixed by exact H1.
  now apply rstrip_fixed.
Qed.

(** X3. A name that is already safe is kept as it is: without reserved
    characters, without whitespace at either end and at most 200
    characters long, it is its own sanitization. *)
Theorem sanitize_keeps_safe_name :
  forall (name : str),
    Forall (fun c => is_reserved c = false) name ->
    starts_with_space name = false ->
    ends_with_space name = false ->
    length name <= 200 ->
    _sanitize_filename name = name.
Proof.
  intros name Hr Hs He Hl. unfold _sanitize_filename, slice_to.
  rewrite remove_reserved_fixed by exact Hr.
  rewrite strip_fixed by assumption.
  now apply firstn_all2.
Qed.

Lemma sanitize_keeps_safe_name_witness :
  _sanitize_filename (lit "Lecture 01 - Intro") = lit "Lecture 01 - Intro".
Proof.
  apply sanitize_keeps_safe_name.
  - repeat constructor.
  - reflexivity.
  - reflexivity.
  - cbn. lia.
Defined.

Lemma sanitize_fallback_title (url v : str) :
  _extract_video_id url = Some v ->
  _sanitize_filename (lit "video_" ++ v) = lit "video_" ++ v.
Proof.
  intros H. apply extract_video_id_shape in H as [L F].
  assert (P : forall c, In c (lit "video_" ++ v) ->
                        is_reserved c = false /\ isspace c = false).
  { intros c Hc. apply id_char_plain. apply in_app_or in Hc as [Hc|Hc].
    - cbn in Hc. now repeat (destruct Hc as [<-|Hc]; [reflexivity|]).
    - rewrite forallb_forall in F. now apply F. }
  unfold _sanitize_filename, slice_to.
  rewrite remove_reserved_fixed
    by (apply Forall_forall; intros c Hc; now apply P).
  destruct (plain_no_edge_space (lit "video_" ++ v)) as [S1 S2];
    [intros c Hc; now apply P|].
  rewrite strip_fixed by assumption.
  apply firstn_all2. rewrite length_app, L. cbn. lia.
Qed.

(** X4. When the title query exits with a non-zero code, no custom name
    is given and titles are in use, a successful download of a video
    whose id was extracted from a URL is stored under the name [video_]
    followed by the id, with the extension [.mp4]. *)
Theorem fallback_title_names_the_file :
  forall (output_path_str : str -> str) (db : DB) (src video_id url : str)
         (custom_name : option str) (rc : Z) (out : str) (lines : list str)
         (now : timestamp),
    _extract_video_id src = Some video_id ->
    opt_truthy custom_name = false ->
    rc <> 0%Z ->
    download_video output_path_str db video_id url custom_name true
      (InfoExited rc out) (DownloadExited 0 lines) now
    = (_update_video_status db url completed
         (Some (output_path_str (lit "video_" ++ video_id ++ lit ".mp4")))
         (Some (lit "video_" ++ video_id)) custom_name None now,
       (true, output_path_str (lit "video_" ++ video_id ++ lit ".mp4"))).
Proof.
  intros P db src vid url custom rc out lines now Hid Hc Hrc.
  unfold download_video, resolve_title.
  apply Z.eqb_neq in Hrc. rewrite Hrc. cbn [Z.eqb].
  assert (E : resolve_filename vid custom true (lit "video_" ++ vid)
              = lit "video_" ++ vid).
  { unfold resolve_filename.
    destruct custom as [c|]; cbn in Hc; [rewrite Hc|];
      now apply (sanitize_fallback_title src). }
  rewrite E, <- !app_assoc. reflexivity.
Qed.

Lemma fallback_title_names_the_file_witness :
  snd (download_video Examples.downloads Examples.db_A_pending Examples.id_A
         Examples.url_A None true (InfoExited 1 []) (DownloadExited 0 []) 2%N)
  = (true, lit "downloads/video_AAAAAAAAAAA.mp4").
Proof.
  assert (H : 1%Z <> 0%Z) by discriminate.
  rewrite (fallback_title_names_the_file Examples.downloads
             Examples.db_A_pending Examples.url_A Examples.id_A Examples.url_A
             None 1%Z [] [] 2%N eq_refl eq_refl H).
  reflexivity.
Defined.

(** ** The job repository *)

Lemma add_loop_appends (urls : list str) :
  forall db added k channel clock,
    exists new,
      rows (fst (add_loop db added k urls channel clock)) = rows db ++ new /\
      snd (add_loop db added k urls channel clock) = added + length new /\
      Forall (inserted_row urls channel) new.
Proof.
  induction urls as [|url rest IH]; intros db added k channel clock.
  - exists []. cbn. rewrite app_nil_r. repeat split; [lia | constructor].
  - rewrite add_loop_step.
    destruct (add_one_cases db url channel (clock k))
      as [(vid & Hv & _ & E) | (_ & E)]; rewrite E; cbn [fst snd].
    + destruct (IH {| rows := rows db ++
                        [pending_row (seq db + 1) url vid channel (clock k)];
                      seq := (seq db + 1)%N |} (S added) (S k) channel clock)
        as (new & R & C & F).
      exists (pending_row (seq db + 1) url vid channel (clock k) :: new).
      cbn [rows] in R. rewrite R, C, <- app_assoc. cbn [app length].
      repeat split; [lia|]. constructor.
      * unfold inserted_row. cbn. repeat split; auto.
      * eapply Forall_impl; [|exact F]. intros r (H1 & H2). split; [now right|exact H2].
    + destruct (IH db added (S k) channel clock) as (new & R & C & F).
      exists new. repeat split; auto.
      eapply Forall_impl; [|exact F]. intros r (H1 & H2). split; [now right|exact H2].
Qed.

(** X5. [add_videos_to_db] only appends: the rows stored before are kept
    unchanged and in place, the returned count is the number of rows
    appended, and every appended row is a pending job for one of the
    given URLs, under the given label, whose [video_id] is the id
    extracted from its URL and whose other columns are NULL. *)
Theorem add_videos_appends_pending_rows :
  forall (db : DB) (video_urls : list str) (channel : str)
         (clock : nat -> timestamp),
    exists new,
      rows (fst (add_videos_to_db db video_urls channel clock)) = rows db ++ new /\
      snd (add_videos_to_db db video_urls channel clock) = length new /\
      Forall (inserted_row video_urls channel) new.
Proof.
  intros db urls channel clock. unfold add_videos_to_db.
  destruct (add_loop_appends urls db 0 0 channel clock) as (new & R & C & F).
  exists new. repeat split; auto.
Qed.

Lemma get_pending_app (rs rs' : list Row) (q : N) (q' : N) (scope : option str) :
  get_pending_videos {| rows := rs ++ rs'; seq := q |} scope
  = get_pending_videos {| rows := rs; seq := q' |} scope
    ++ get_pending_videos {| rows := rs'; seq := q' |} scope.
Proof. unfold get_pending_videos. cbn [rows]. now rewrite filter_app, map_app. Qed.

Lemma get_pending_seq (rs : list Row) (q q' : N) (scope : option str) :
  get_pending_videos {| rows := rs; seq := q |} scope
  = get_pending_videos {| rows := rs; seq := q' |} scope.
Proof. reflexivity. Qed.

Lemma pending_urls_add_loop (urls : list str) :
  forall db added k channel clock scope,
    NoDup urls ->
    (forall u, In u urls -> _extract_video_id u <> None) ->
    (forall u, In u urls -> url_in u (rows db) = false) ->
    scope = None \/ scope = Some channel ->
    pending_urls (fst (add_loop db added k urls channel clock)) scope
    = pending_urls db scope ++ urls /\
    snd (add_loop db added k urls channel clock) = added + length urls.
Proof.
  induction urls as [|url rest IH];
    intros db added k channel clock scope ND Hid Hnew Hs.
  - cbn. rewrite app_nil_r. split; [reflexivity | lia].
  - apply NoDup_cons_iff in ND as [Hn ND].
    destruct (_extract_video_id url) as [vid|] eqn:Hv;
      [|exfalso; apply (Hid url); [now left | exact Hv]].
    rewrite add_loop_step.
    rewrite (add_one_new db url vid channel (clock k) Hv)
      by (apply Hnew; now left).
    cbn [fst snd].
    set (db1 := {| rows := rows db ++
                     [pending_row (seq db + 1) url vid channel (clock k)];
                   seq := (seq db + 1)%N |}).
    destruct (IH db1 (S added) (S k) channel clock scope ND) as [R C].
    + intros u Hu. apply Hid. now right.
    + intros u Hu. subst db1. cbn [rows]. rewrite url_in_app.
      rewrite (Hnew u) by now right. unfold url_in. cbn.
      destruct (str_eqb url u) eqn:E; [|reflexivity].
      apply str_eqb_eq in E. subst u. contradiction.
    + exact Hs.
    + rewrite R, C. split; [|cbn; lia].
      unfold pending_urls. subst db1.
      rewrite (get_pending_app (rows db) _ _ (seq db)), map_app, <- app_assoc.
      destruct db as [rs q]. cbn [rows seq]. f_equal.
      unfold get_pending_videos. cbn.
      destruct Hs as [-> | ->]; [reflexivity|].
      unfold channel_is. cbn. rewrite str_eqb_refl.
      now destruct (truthy channel).
Qed.

(** X6. Insert, then list: when the given URLs are distinct, each has a
    video id and none is stored yet, the pending jobs listed after
    [add_videos_to_db] (over the whole store, or under the label just
    used) are those listed before followed by the given URLs in their
    order, and the returned count is the number of URLs given. *)
Theorem pending_after_add_lists_the_urls :
  forall (db : DB) (video_urls : list str) (channel : str)
         (clock : nat -> timestamp) (scope : option str),
    NoDup video_urls ->
    (forall u, In u video_urls -> _extract_video_id u <> None) ->
    (forall u, In u video_urls -> url_in u (rows db) = false) ->
    scope = None \/ scope = Some channel ->
    pending_urls (fst (add_videos_to_db db video_urls channel clock)) scope
    = pending_urls db scope ++ video_urls /\
    snd (add_videos_to_db db video_urls channel clock) = length video_urls.
Proof.
  intros db urls channel clock scope ND Hid Hnew Hs.
  unfold add_videos_to_db.
  now apply (pending_urls_add_loop urls db 0 0 channel clock scope).
Qed.

Lemma pending_after_add_lists_the_urls_witness :
  pending_urls
    (fst (add_videos_to_db Examples.db_mixed
            [lit "https://www.youtube.com/watch?v=DDDDDDDDDDD";
             lit "https://www.youtube.com/watch?v=EEEEEEEEEEE"]
            (lit "playlist") (fun _ => 9%N)))
    (Some (lit "playlist"))
  = pending_urls Examples.db_mixed (Some (lit "playlist"))
    ++ [lit "https://www.youtube.com/watch?v=DDDDDDDDDDD";
        lit "https://www.youtube.com/watch?v=EEEEEEEEEEE"].
Proof.
  apply (pending_after_add_lists_the_urls Examples.db_mixed
           [lit "https://www.youtube.com/watch?v=DDDDDDDDDDD";
            lit "https://www.youtube.com/watch?v=EEEEEEEEEEE"]
           (lit "playlist") (fun _ => 9%N) (Some (lit "playlist"))).
  - repeat constructor; cbn; intuition discriminate.
  - intros u [<-|[<-|[]]]; discriminate.
  - intros u [<-|[<-|[]]]; reflexivity.
  - now right.
Defined.

Lemma update_row_key url st p t c e now r :
  row_key (update_row url st p t c e now r) = row_key r.
Proof.
  unfold update_row, row_key.
  destruct (str_eqb (video_url r) url); [|reflexivity]. now destruct st.
Qed.

Lemma NoDup_map_filter {A B} (f : A -> B) (g : A -> bool) (l : list A) :
  NoDup (map f l) -> NoDup (map f (filter g l)).
Proof.
  induction l as [|x l IH]; cbn; [auto|].
  intros H. apply NoDup_cons_iff in H as [Hn H].
  destruct (g x); cbn; [|now apply IH].
  constructor; [|now apply IH].
  intros Hin. apply Hn. apply in_map_iff in Hin as (y & E & Hy).
  apply filter_In in Hy as [Hy _]. rewrite <- E. now apply in_map.
Qed.

Lemma ids_fresh_update db url st p t c e now :
  ids_fresh db -> ids_fresh (_update_video_status db url st p t c e now).
Proof.
  intros [ND B]. unfold ids_fresh, _update_video_status. cbn [rows seq].
  assert (K : forall r, id (update_row url st p t c e now r) = id r).
  { intros r. pose proof (update_row_key url st p t c e now r) as K.
    unfold row_key in K. congruence. }
  split.
  - rewrite map_map. erewrite map_ext; [exact ND|]. exact K.
  - apply Forall_forall. intros r' Hr'. apply in_map_iff in Hr' as (r & <- & Hr).
    rewrite K. rewrite Forall_forall in B. now apply B.
Qed.

(** X7. Ids are never reused: after every repository operation (an
    insertion, a status update, a confirmed deletion) the ids of the
    stored rows are distinct and none exceeds the AUTOINCREMENT counter,
    and no operation lowers the counter, from which the next id is
    taken. *)
Theorem ids_stay_fresh :
  forall (db : DB) (op : RepoOp),
    ids_fresh db ->
    ids_fresh (apply_op db op) /\ (seq db <= seq (apply_op db op))%N.
Proof.
  intros db op [ND B].
  destruct op as [url channel now | url path t c now | url err now | a];
    cbn [apply_op].
  - destruct (add_one_cases db url channel now)
      as [(vid & _ & _ & ->) | (_ & ->)]; cbn [fst];
      [|split; [now split | lia]].
    split; [|cbn; lia]. unfold ids_fresh. cbn [rows seq].
    rewrite Forall_forall in B. split.
    + rewrite map_app. cbn. apply NoDup_app; [exact ND | repeat constructor; intros [] |].
      intros i Hi [<-|[]]. apply in_map_iff in Hi as (r & E & Hr).
      specialize (B r Hr). lia.
    + apply Forall_app. split.
      * apply Forall_forall. intros r Hr. specialize (B r Hr). lia.
      * repeat constructor. cbn. lia.
  - split; [now apply ids_fresh_update | cbn; lia].
  - split; [now apply ids_fresh_update | cbn; lia].
  - unfold delete_videos.
    destruct (length (filter (selected a) (rows db)) =? 0); cbn;
      [split; [now split | lia]|].
    split; [|lia]. split; cbn.
    + now apply NoDup_map_filter.
    + apply Forall_forall. intros r Hr. apply filter_In in Hr as [Hr _].
      rewrite Forall_forall in B. now apply B.
Qed.

Lemma ids_stay_fresh_witness :
  ids_fresh (apply_op (apply_op Examples.db_mixed (OpDelete delete_all))
               (OpInsert Examples.url_A (lit "channel") 9%N)) /\
  map id (rows (apply_op (apply_op Examples.db_mixed (OpDelete delete_all))
                  (OpInsert Examples.url_A (lit "channel") 9%N))) = [4%N].
Proof.
  split; [|reflexivity].
  apply ids_stay_fresh. apply ids_stay_fresh.
  split.
  - cbn. repeat constructor; cbn; intuition discriminate.
  - repeat constructor; cbn; lia.
Defined.

(** ** The download orchestrator *)

(** Every run of [download_video] ends in one status update of the job's
    URL, to completed when it reports success and to failed otherwise. *)
Lemma download_video_as_update P db vid url custom use_title info dl now :
  exists p t c e,
    fst (download_video P db vid url custom use_title info dl now)
    = _update_video_status db url
        (if fst (snd (download_video P db vid url custom use_title info dl now))
         then completed else failed) p t c e now.
Proof.
  unfold download_video, fail_with.
  destruct info as [|msg|rc out]; cbn [fst snd]; try (now eexists _, _, _, _).
  destruct dl as [msg|rc' lines]; cbn [fst snd]; try (now eexists _, _, _, _).
  destruct (rc' =? 0)%Z; cbn [fst snd]; now eexists _, _, _, _.
Qed.

(** X8. [download_video] touches one job only. Whatever the external tool
    does, the store afterwards has the same rows in the same order; no id,
    URL, video id, label or discovery time changes; a row with another
    URL is unchanged; and every row with the job's URL ends completed
    when success is reported and failed otherwise, never pending. *)
Theorem download_video_touches_one_job :
  forall (output_path_str : str -> str) (db : DB) (video_id url : str)
         (custom_name : option str) (use_title : bool)
         (info : InfoRun) (dl : DownloadRun) (now : timestamp),
    let res := download_video output_path_str db video_id url custom_name
                 use_title info dl now in
    seq (fst res) = seq db /\
    Forall2
      (fun r r' =>
         row_key r' = row_key r /\
         (video_url r <> url -> r' = r) /\
         (video_url r = url ->
          status r' = if fst (snd res) then completed else failed))
      (rows db) (rows (fst res)).
Proof.
  intros P db vid url custom use_title info dl now res.
  destruct (download_video_as_update P db vid url custom use_title info dl now)
    as (p & t & c & e & E).
  subst res. rewrite E. cbn [_update_video_status seq rows].
  split; [reflexivity|].
  apply Forall2_map_self. intros r _. split; [apply update_row_key|]. split.
  - apply update_row_other.
  - intros U. rewrite update_row_status. apply str_eqb_eq in U. now rewrite U.
Qed.

(** X9. Exit code 0 of the download is the only success: [download_video]
    reports success exactly when the title query returned and the
    download process exited with code 0. Every row of the job's URL then
    holds the returned path in [download_path], the resolved title, the
    custom name as given and the time of the update in [downloaded_at]. *)
Theorem download_success_iff_exit_zero :
  forall (output_path_str : str -> str) (db : DB) (video_id url : str)
         (custom_name : option str) (use_title : bool)
         (info : InfoRun) (dl : DownloadRun) (now : timestamp),
    let res := download_video output_path_str db video_id url custom_name
                 use_title info dl now in
    (fst (snd res) = true <->
     exists rc out lines,
       info = InfoExited rc out /\ dl = DownloadExited 0 lines) /\
    (fst (snd res) = true ->
     forall r', In r' (rows (fst res)) -> video_url r' = url ->
       status r' = completed /\
       download_path r' = Some (snd (snd res)) /\
       (exists rc out, info = InfoExited rc out /\
                       title r' = Some (resolve_title video_id rc out)) /\
       custom_filename r' = custom_name /\
       downloaded_at r' = Some now).
Proof.
  intros P db vid url custom use_title info dl now res. subst res.
  unfold download_video, fail_with.
  destruct info as [|msg|rc out]; cbn [fst snd];
    try (split; [split; [discriminate | intros (? & ? & ? & ? & _); discriminate]
                | discriminate]).
  destruct dl as [msg|rc' lines]; cbn [fst snd];
    try (split; [split; [discriminate | intros (? & ? & ? & _ & ?); discriminate]
                | discriminate]).
  destruct (rc' =? 0)%Z eqn:E; cbn [fst snd].
  - apply Z.eqb_eq in E. subst rc'. split.
    + split; [|reflexivity]. intros _. now exists rc, out, lines.
    + intros _ r' Hr' U. cbn [_update_video_status rows] in Hr'.
      apply in_map_iff in Hr' as (r & <- & _).
      rewrite update_row_url in U. unfold update_row.
      apply str_eqb_eq in U. rewrite U. cbn.
      repeat split. now exists rc, out.
  - split; [|discriminate]. split; [discriminate|].
    intros (? & ? & ? & _ & H). injection H as -> _. discriminate.
Qed.

(** ** The batch runner *)

Lemma get_pending_videos_eq (db : DB) (channel : option str) :
  get_pending_videos db channel
  = map (fun r => (id r, video_url r, video_id r))
      (filter (fun r => Status_eqb (status r) pending && in_scope channel r)
         (rows db)).
Proof. reflexivity. Qed.

Lemma in_pending_urls (db : DB) (channel : option str) (r : Row) :
  In r (rows db) -> status r = pending -> in_scope channel r = true ->
  In (video_url r) (pending_urls db channel).
Proof.
  intros Hr Hs Hc. unfold pending_urls. rewrite get_pending_videos_eq, map_map.
  cbn [fst snd]. apply in_map_iff. exists r. split; [reflexivity|].
  apply filter_In. split; [exact Hr|].
  apply andb_true_iff. split; [now apply Status_eqb_eq | exact Hc].
Qed.

Lemma in_scope_key (channel : option str) (r r' : Row) :
  row_key r' = row_key r -> in_scope channel r' = in_scope channel r.
Proof.
  unfold row_key, in_scope, channel_is. intros K.
  assert (E : channel_url r' = channel_url r) by congruence.
  now rewrite E.
Qed.

Lemma batch_loop_step P db ut interactive k i url vid rest io :
  batch_loop P db ut interactive k ((i, url, vid) :: rest) io
  = let naming := item_naming interactive ut (io k) in
    let res := download_video P db vid url (fst naming) (snd naming)
                 (info (io k)) (dl (io k)) (now (io k)) in
    let tail := batch_loop P (fst res) (snd naming) interactive (S k) rest io in
    (fst tail, mkCall vid url (fst naming) (snd naming) :: snd tail).
Proof.
  cbn [batch_loop].
  destruct (item_naming interactive ut (io k)) as [c u]. cbn [fst snd].
  destruct (download_video P db vid url c u (info (io k)) (dl (io k))
              (now (io k))) as [db' res]. cbn [fst snd].
  now destruct (batch_loop P db' u interactive (S k) rest io).
Qed.

(** The loop rewrites the rows in place: each row of a listed URL ends in
    a terminal state, every other row is untouched, and no terminal row
    goes back to pending. *)
Lemma batch_loop_rows P interactive io (videos : list (N * str * str)) :
  forall db ut k,
    exists F : Row -> Row,
      rows (fst (batch_loop P db ut interactive k videos io)) = map F (rows db) /\
      seq (fst (batch_loop P db ut interactive k videos io)) = seq db /\
      forall r,
        row_key (F r) = row_key r /\
        (~ In (video_url r) (map (fun t => snd (fst t)) videos) -> F r = r) /\
        (In (video_url r) (map (fun t => snd (fst t)) videos) ->
         status (F r) <> pending) /\
        (status r <> pending -> status (F r) <> pending).
Proof.
  induction videos as [|[[i url] vid] rest IH]; intros db ut k.
  - exists (fun r => r). cbn. rewrite map_id. repeat split; auto.
  - rewrite batch_loop_step. cbn zeta. cbn [fst].
    set (naming := item_naming interactive ut (io k)).
    destruct (download_video_as_update P db vid url (fst naming) (snd naming)
                (info (io k)) (dl (io k)) (now (io k)))
      as (p & t & c & e & E).
    set (res := download_video P db vid url (fst naming) (snd naming)
                  (info (io k)) (dl (io k)) (now (io k))) in *.
    set (st := if fst (snd res) then completed else failed) in *.
    assert (Hst : st <> pending) by (subst st; destruct (fst (snd res)); discriminate).
    destruct (IH (fst res) (snd naming) (S k)) as (F & R & Q & HF).
    exists (fun r => F (update_row url st p t c e (now (io k)) r)).
    rewrite R, Q, E. cbn [_update_video_status rows seq]. rewrite map_map.
    split; [reflexivity|]. split; [reflexivity|].
    intros r. destruct (HF (update_row url st p t c e (now (io k)) r))
      as (K & Hout & Hin & Hterm).
    pose proof (update_row_key url st p t c e (now (io k)) r) as K0.
    assert (U : video_url (update_row url st p t c e (now (io k)) r) = video_url r)
      by apply update_row_url.
    rewrite U in *.
    assert (T : status r <> pending \/ video_url r = url ->
                status (update_row url st p t c e (now (io k)) r) <> pending).
    { rewrite update_row_status. intros [H|H].
      - now destruct (str_eqb (video_url r) url).
      - apply str_eqb_eq in H. now rewrite H. }
    cbn [map fst snd]. repeat split.
    + congruence.
    + intros Hn. rewrite Hout by (intros H; apply Hn; now right).
      apply update_row_other. intros H. apply Hn. now left.
    + intros [H|H]; [apply Hterm, T; now right | now apply Hin].
    + intros H. apply Hterm, T. now left.
Qed.

Lemma batch_loop_calls P interactive io (videos : list (N * str * str)) :
  forall db ut k,
    map (fun c => (call_video_url c, call_video_id c))
      (snd (batch_loop P db ut interactive k videos io))
    = map (fun t => (snd (fst t), snd t)) videos.
Proof.
  induction videos as [|[[i url] vid] rest IH]; intros db ut k; [reflexivity|].
  rewrite batch_loop_step. cbn zeta. cbn [snd fst map call_video_url call_video_id].
  now rewrite IH.
Qed.

Lemma download_all_pending_confirmed P db ut interactive channel skip answer io :
  confirmed skip answer ->
  download_all_pending P db ut interactive channel skip answer io
  = batch_loop P db ut interactive 0 (get_pending_videos db channel) io.
Proof.
  intros Hc. unfold download_all_pending.
  destruct (get_pending_videos db channel) as [|v vs]; [reflexivity|].
  replace (negb skip && negb (str_eqb answer (lit "y"))) with false;
    [reflexivity|].
  destruct Hc as [-> | ->]; [reflexivity|].
  rewrite str_eqb_refl. now rewrite andb_false_r.
Qed.

(** A confirmed batch leaves no pending job in its scope. *)
Lemma batch_clears_scope P db ut interactive channel skip answer io :
  confirmed skip answer ->
  get_pending_videos
    (fst (download_all_pending P db ut interactive channel skip answer io))
    channel = [].
Proof.
  intros Hc. rewrite download_all_pending_confirmed by exact Hc.
  destruct (batch_loop_rows P interactive io (get_pending_videos db channel)
              db ut 0) as (F & R & _ & HF).
  rewrite get_pending_videos_eq, R.
  replace (filter (fun r => Status_eqb (status r) pending && in_scope channel r)
             (map F (rows db))) with (@nil Row); [reflexivity|].
  symmetry.
  destruct (filter (fun r => Status_eqb (status r) pending && in_scope channel r)
              (map F (rows db))) as [|r' l] eqn:E; [reflexivity|].
  exfalso.
  assert (Hr' : In r' (r' :: l)) by now left.
  rewrite <- E in Hr'. apply filter_In in Hr' as [Hin Hk].
  apply in_map_iff in Hin as (r & <- & Hr).
  apply andb_true_iff in Hk as [Hs Hsc]. apply Status_eqb_eq in Hs.
  destruct (HF r) as (K & _ & Hin & Hterm).
  rewrite (in_scope_key channel r (F r) K) in Hsc.
  assert (Hp : status r = pending).
  { destruct (status r) eqn:S; [reflexivity | |];
      exfalso; apply Hterm; [discriminate | exact Hs | discriminate | exact Hs]. }
  apply Hin; [|exact Hs].
  now apply (in_pending_urls db channel r).
Qed.

(** X10. A confirmed batch calls [download_video] once for every pending
    job of its scope, in insertion order, with the job's URL and video
    id: the outcome of one download never stops or reorders the rest. *)
Theorem batch_calls_every_pending_job :
  forall (output_path_str : str -> str) (db : DB) (use_title interactive : bool)
         (channel : option str) (skip_confirmation : bool) (answer : str)
         (io : nat -> ItemIO),
    confirmed skip_confirmation answer ->
    map (fun c => (call_video_url c, call_video_id c))
      (snd (download_all_pending output_path_str db use_title interactive
              channel skip_confirmation answer io))
    = map (fun t => (snd (fst t), snd t)) (get_pending_videos db channel).
Proof.
  intros P db ut interactive channel skip answer io Hc.
  rewrite download_all_pending_confirmed by exact Hc.
  apply batch_loop_calls.
Qed.

(** X11. After a confirmed batch no job of its scope is pending: every
    job the batch read has been marked completed or failed. *)
Theorem batch_leaves_none_pending :
  forall (output_path_str : str -> str) (db : DB) (use_title interactive : bool)
         (channel : option str) (skip_confirmation : bool) (answer : str)
         (io : nat -> ItemIO),
    confirmed skip_confirmation answer ->
    get_pending_videos
      (fst (download_all_pending output_path_str db use_title interactive
              channel skip_confirmation answer io))
      channel = [].
Proof. intros. now apply batch_clears_scope. Qed.

(** X12. A batch, confirmed or declined, rewrites rows in place and only
    those of the jobs it read as pending: the rows keep their order, ids,
    URLs, video ids, labels and discovery times, the counter is kept, and
    a row whose URL is not among the pending URLs of the scope is
    unchanged. *)
Theorem batch_touches_only_pending_jobs :
  forall (output_path_str : str -> str) (db : DB) (use_title interactive : bool)
         (channel : option str) (skip_confirmation : bool) (answer : str)
         (io : nat -> ItemIO),
    let db' := fst (download_all_pending output_path_str db use_title
                      interactive channel skip_confirmation answer io) in
    seq db' = seq db /\
    Forall2
      (fun r r' =>
         row_key r' = row_key r /\
         (status r <> pending -> status r' <> pending) /\
         (~ In (video_url r) (pending_urls db channel) -> r' = r))
      (rows db) (rows db').
Proof.
  intros P db ut interactive channel skip answer io db'. subst db'.
  assert (Hid : seq db = seq db /\
                Forall2 (fun r r' =>
                           row_key r' = row_key r /\
                           (status r <> pending -> status r' <> pending) /\
                           (~ In (video_url r) (pending_urls db channel) -> r' = r))
                  (rows db) (rows db)).
  { split; [reflexivity|]. rewrite <- (map_id (rows db)) at 2.
    apply Forall2_map_self. now intros r _. }
  unfold download_all_pending.
  destruct (get_pending_videos db channel) as [|v vs] eqn:V; [exact Hid|].
  destruct (negb skip && negb (str_eqb answer (lit "y"))); [exact Hid|].
  rewrite <- V.
  destruct (batch_loop_rows P interactive io (get_pending_videos db channel)
              db ut 0) as (F & R & Q & HF).
  rewrite R, Q. split; [reflexivity|].
  apply Forall2_map_self. intros r _. destruct (HF r) as (K & Hout & _ & Ht).
  repeat split; auto.
Qed.

Lemma batch_calls_every_pending_job_witness :
  map (fun c => (call_video_url c, call_video_id c))
    (snd (download_all_pending Examples.downloads Examples.db_two_pending
            true true None false (lit "y") Examples.io_n_then_y))
  = [(Examples.url_A, Examples.id_A); (Examples.url_B, Examples.id_B)].
Proof.
  rewrite (batch_calls_every_pending_job Examples.downloads
             Examples.db_two_pending true true None false (lit "y")
             Examples.io_n_then_y (or_intror eq_refl)).
  reflexivity.
Defined.

Lemma batch_leaves_none_pending_witness :
  get_pending_videos Examples.db_mixed (Some (lit "channel")) <> [] /\
  get_pending_videos
    (fst (download_all_pending Examples.downloads Examples.db_mixed true false
            (Some (lit "channel")) true [] Examples.io_y_then_y))
    (Some (lit "channel")) = [].
Proof.
  split; [discriminate|].
  apply batch_leaves_none_pending. now left.
Defined.

Lemma item_naming_plain (ut : bool) (e : ItemIO) :
  item_naming false ut e = (None, ut).
Proof. reflexivity. Qed.

Lemma batch_loop_plain P io (videos : list (N * str * str)) :
  forall db ut k,
    Forall (fun c => call_custom_name c = None /\ call_use_title c = ut)
      (snd (batch_loop P db ut false k videos io)).
Proof.
  induction videos as [|[[i url] vid] rest IH]; intros db ut k.
  - constructor.
  - rewrite batch_loop_step. cbn zeta. rewrite item_naming_plain.
    cbn [fst snd]. constructor; [now split | apply IH].
Qed.

(** X13. Without interactive mode the naming is uniform: every call of
    the batch passes no custom name and the [use_title] the batch was
    started with. *)
Theorem plain_batch_names_uniformly :
  forall (output_path_str : str -> str) (db : DB) (use_title : bool)
         (channel : option str) (skip_confirmation : bool) (answer : str)
         (io : nat -> ItemIO),
    Forall (fun c => call_custom_name c = None /\ call_use_title c = use_title)
      (snd (download_all_pending output_path_str db use_title false channel
              skip_confirmation answer io)).
Proof.
  intros P db ut channel skip answer io. unfold download_all_pending.
  destruct (get_pending_videos db channel) as [|v vs]; [constructor|].
  destruct (negb skip && negb (str_eqb answer (lit "y"))); [constructor|].
  apply batch_loop_plain.
Qed.

(** ** The single-video and playlist commands *)

Lemma status_of_stored (db : DB) (url : str) :
  url_in url (rows db) = true -> exists s, status_of db url = Some s.
Proof.
  unfold url_in, status_of. intros H. apply existsb_exists in H as (r & Hr & E).
  destruct (find (fun r => str_eqb (video_url r) url) (rows db)) as [r0|] eqn:F.
  - now exists (status r0).
  - apply (find_none _ _ F) in Hr. congruence.
Qed.

(** X14. The single-video command leaves its job in a terminal state.
    When the option is not given, or given empty, the branch is skipped
    and the store is unchanged. For a non-empty URL without a video id
    the command exits with an error and leaves the store unchanged. For
    a URL with a video id it stores the job if it is new, runs one
    download, and the status stored for the URL is completed when the
    download reports success and failed otherwise, whatever the status
    was before. *)
Theorem single_video_ends_terminal :
  forall (output_path_str : str -> str) (db : DB) (video : option str)
         (use_id interactive : bool) (clock : nat -> timestamp) (e : ItemIO),
    (video = None \/ video = Some [] ->
     main_video output_path_str db video use_id interactive clock e
     = (db, VideoNotAsked)) /\
    (forall url,
        video = Some url -> url <> [] -> _extract_video_id url = None ->
        main_video output_path_str db video use_id interactive clock e
        = (db, VideoInvalid)) /\
    (forall url vid,
        video = Some url -> _extract_video_id url = Some vid ->
        exists ok detail,
          snd (main_video output_path_str db video use_id interactive clock e)
          = VideoDownloaded (ok, detail) /\
          status_of
            (fst (main_video output_path_str db video use_id interactive
                    clock e)) url
          = Some (if ok then completed else failed)).
Proof.
  intros P db video use_id interactive clock e. split; [|split].
  - intros [-> | ->]; reflexivity.
  - intros url -> Hne Hv. unfold main_video. rewrite Hv.
    destruct url; [contradiction | reflexivity].
  - intros url vid -> Hv. unfold main_video. rewrite Hv.
    assert (T : truthy url = true) by (destruct url; [discriminate Hv | reflexivity]).
    rewrite T.
    destruct (item_naming interactive (negb use_id) e) as [custom ut].
    set (db1 := fst (add_videos_to_db db [url] (lit "Single Video") clock)).
    assert (S : url_in url (rows db1) = true).
    { destruct (add_loop_settles [url] db 0 0 (lit "Single Video") clock url)
        as [H|H]; [now left | congruence | exact H]. }
    destruct (status_of_stored db1 url S) as [s Hs].
    destruct (download_video_as_update P db1 vid url custom ut (info e) (dl e)
                (now e)) as (p & t & c & err & E).
    destruct (download_video P db1 vid url custom ut (info e) (dl e) (now e))
      as [db2 [ok detail]] eqn:D.
    cbn [fst snd] in *. exists ok, detail. split; [reflexivity|].
    rewrite E, status_of_update, str_eqb_refl, Hs. reflexivity.
Qed.

Lemma single_video_ends_terminal_witness :
  main_video Examples.downloads Examples.db_mixed (Some []) false false
    (fun _ => 9%N) (Examples.item "y" "Title")
  = (Examples.db_mixed, VideoNotAsked) /\
  main_video Examples.downloads Examples.db_mixed
    (Some (lit "https://www.youtube.com/")) false false
    (fun _ => 9%N) (Examples.item "y" "Title")
  = (Examples.db_mixed, VideoInvalid) /\
  exists ok detail,
    snd (main_video Examples.downloads Examples.db_mixed (Some Examples.url_B)
           false false (fun _ => 9%N) (Examples.item "y" "Title"))
    = VideoDownloaded (ok, detail) /\
    status_of
      (fst (main_video Examples.downloads Examples.db_mixed (Some Examples.url_B)
              false false (fun _ => 9%N) (Examples.item "y" "Title")))
      Examples.url_B
    = Some (if ok then completed else failed).
Proof.
  split; [|split].
  - destruct (single_video_ends_terminal Examples.downloads Examples.db_mixed
                (Some []) false false (fun _ => 9%N)
                (Examples.item "y" "Title")) as (H & _ & _).
    apply H. now right.
  - destruct (single_video_ends_terminal Examples.downloads Examples.db_mixed
                (Some (lit "https://www.youtube.com/")) false false
                (fun _ => 9%N) (Examples.item "y" "Title")) as (_ & H & _).
    apply (H (lit "https://www.youtube.com/"));
      [reflexivity | discriminate | reflexivity].
  - destruct (single_video_ends_terminal Examples.downloads Examples.db_mixed
                (Some Examples.url_B) false false
                (fun _ => 9%N) (Examples.item "y" "Title")) as (_ & _ & H).
    apply (H Examples.url_B Examples.id_B); reflexivity.
Defined.

(** ** Maintenance: deletion *)

Lemma filter_selected_twice (a : DeleteArg) (rs : list Row) :
  filter (selected a) (filter (fun r => negb (selected a r)) rs) = [].
Proof.
  induction rs as [|r rs IH]; [reflexivity|].
  cbn [filter]. destruct (selected a r) eqn:E; cbn [negb filter]; [exact IH|].
  now rewrite E.
Qed.

(** X16. Deleting twice deletes once: after a confirmed deletion, a second
    deletion with the same filter finds no video, asks nothing and leaves
    the store as the first one left it. *)
Theorem delete_again_finds_nothing :
  forall (db : DB) (a : DeleteArg) (skip_confirmation : bool) (answer : str)
         (skip_confirmation' : bool) (answer' : str),
    confirmed skip_confirmation answer ->
    let db' := fst (delete_videos db a skip_confirmation answer) in
    delete_videos db' a skip_confirmation' answer' = (db', NoVideosFound).
Proof.
  intros db a skip answer skip' answer' Hc db'.
  assert (Z : length (filter (selected a) (rows db')) = 0).
  { subst db'. unfold delete_videos.
    destruct (length (filter (selected a) (rows db)) =? 0) eqn:E.
    - cbn [fst]. now apply Nat.eqb_eq.
    - replace (negb skip && negb (str_eqb answer (lit "y"))) with false.
      + cbn [fst rows]. now rewrite filter_selected_twice.
      + destruct Hc as [-> | ->]; [reflexivity|].
        rewrite str_eqb_refl. now rewrite andb_false_r. }
  unfold delete_videos at 1. now rewrite Z.
Qed.

Lemma delete_again_finds_nothing_witness :
  let db' := fst (delete_videos Examples.db_mixed (delete_status failed) true []) in
  length (rows db') = 2 /\
  delete_videos db' (delete_status failed) false (lit "y") = (db', NoVideosFound).
Proof.
  split; [reflexivity|].
  apply (delete_again_finds_nothing Examples.db_mixed (delete_status failed)
           true [] false (lit "y")).
  now left.
Defined.

Lemma url_not_in_filter (g : Row -> bool) (rs : list Row) (r : Row) :
  NoDup (map video_url rs) -> In r rs -> g r = false ->
  url_in (video_url r) (filter g rs) = false.
Proof.
  intros ND Hr Hg.
  destruct (url_in (video_url r) (filter g rs)) eqn:E; [|reflexivity].
  exfalso. apply url_in_spec in E. apply in_map_iff in E as (r' & U & Hr').
  apply filter_In in Hr' as [Hr' Hg'].
  assert (r' = r); [|congruence].
  clear Hg Hg'. induction rs as [|x rs IH]; [destruct Hr|].
  cbn in ND. apply NoDup_cons_iff in ND as [Hn ND].
  destruct Hr as [->|Hr], Hr' as [->|Hr']; auto.
  - exfalso. apply Hn. rewrite <- U. now apply in_map.
  - exfalso. apply Hn. rewrite U. now apply in_map.
Qed.

(** X17. A deleted job can be discovered again and starts over. In a
    store with unique URLs, after a confirmed deletion that selects the
    row of a URL, inserting the URL again appends a new pending row for
    it, with a new id above the counter and no title, path or error
    detail, and counts it as added. *)
Theorem deleted_job_is_inserted_anew :
  forall (db : DB) (a : DeleteArg) (r : Row) (vid channel : str)
         (now : timestamp),
    unique_urls db ->
    In r (rows db) ->
    selected a r = true ->
    _extract_video_id (video_url r) = Some vid ->
    let db' := fst (delete_videos db a true []) in
    add_one db' (video_url r) channel now
    = ({| rows := rows db' ++
            [pending_row (seq db + 1) (video_url r) vid channel now];
          seq := (seq db + 1)%N |}, true).
Proof.
  intros db a r vid channel now U Hr Hs Hv db'.
  assert (D : db' = {| rows := filter (fun x => negb (selected a x)) (rows db);
                       seq := seq db |}).
  { subst db'. unfold delete_videos.
    destruct (length (filter (selected a) (rows db)) =? 0) eqn:E; [|reflexivity].
    apply Nat.eqb_eq in E. exfalso.
    assert (H : In r (filter (selected a) (rows db)))
      by (apply filter_In; now split).
    destruct (filter (selected a) (rows db)); [destruct H | discriminate]. }
  rewrite (add_one_new db' (video_url r) vid channel now Hv).
  - now rewrite D.
  - rewrite D. cbn [rows]. apply url_not_in_filter; auto.
    now rewrite Hs.
Qed.

Lemma deleted_job_is_inserted_anew_witness :
  map (fun r => (id r, status r, download_path r))
    (rows (fst (add_one (fst (delete_videos Examples.db_A_completed
                                (delete_status completed) true []))
                  Examples.url_A (lit "channel") 9%N)))
  = [(2%N, pending, None)].
Proof.
  assert (R : exists r, rows Examples.db_A_completed = [r] /\
                        video_url r = Examples.url_A /\
                        selected (delete_status completed) r = true).
  { eexists. repeat split. }
  destruct R as (r & R & Hu & Hs).
  assert (U : unique_urls Examples.db_A_completed).
  { unfold unique_urls. rewrite R. repeat constructor. intros []. }
  assert (Hr : In r (rows Examples.db_A_completed)) by (rewrite R; now left).
  assert (Hv : _extract_video_id (video_url r) = Some Examples.id_A)
    by now rewrite Hu.
  pose proof (deleted_job_is_inserted_anew Examples.db_A_completed
                (delete_status completed) r Examples.id_A (lit "channel") 9%N
                U Hr Hs Hv) as E.
  cbv zeta in E. rewrite Hu in E. rewrite E. reflexivity.
Defined.

(** ** Playlist enumeration *)

Lemma well_formed_id_plain (v : str) :
  well_formed_id v ->
  v <> [] /\ forall c, In c v -> isspace c = false /\ c <> 10%N.
Proof.
  intros [L F]. split; [intros ->; discriminate L|].
  intros c Hc. rewrite forallb_forall in F.
  destruct (id_char_plain c (F c Hc)) as [_ S]. split; [exact S|].
  intros ->. discriminate S.
Qed.

Lemma split_on_word (sep : char) (w : str) :
  ~ In sep w -> split_on sep w = [w].
Proof.
  induction w as [|c w IH]; intros H; [reflexivity|].
  cbn [split_on]. destruct (N.eqb c sep) eqn:E.
  - apply N.eqb_eq in E. exfalso. apply H. now left.
  - rewrite IH; [reflexivity|]. intros Hin. apply H. now right.
Qed.

Lemma split_on_word_sep (sep : char) (w s : str) :
  ~ In sep w -> split_on sep (w ++ sep :: s) = w :: split_on sep s.
Proof.
  induction w as [|c w IH]; intros H.
  - cbn. now rewrite N.eqb_refl.
  - cbn [app split_on]. destruct (N.eqb c sep) eqn:E.
    + apply N.eqb_eq in E. exfalso. apply H. now left.
    + rewrite IH; [reflexivity|]. intros Hin. apply H. now right.
Qed.

Lemma split_join_lines (ids : list str) :
  ids <> [] ->
  (forall v, In v ids -> ~ In 10%N v) ->
  split_on 10%N (join_lines ids) = ids.
Proof.
  induction ids as [|v rest IH]; intros Hne H; [contradiction|].
  destruct rest as [|v' rest].
  - cbn. apply split_on_word, H. now left.
  - change (join_lines (v :: v' :: rest))
      with (v ++ 10%N :: join_lines (v' :: rest)).
    rewrite split_on_word_sep by (apply H; now left).
    rewrite IH; [reflexivity | discriminate |].
    intros w Hw. apply H. now right.
Qed.

Lemma lines_join_lines (ids : list str) :
  ids <> [] ->
  concat (map (fun v => v ++ [10%N]) ids) = join_lines ids ++ [10%N].
Proof.
  induction ids as [|v rest IH]; intros Hne; [contradiction|].
  destruct rest as [|v' rest].
  - cbn. now rewrite app_nil_r.
  - change (join_lines (v :: v' :: rest))
      with (v ++ 10%N :: join_lines (v' :: rest)).
    transitivity ((v ++ [10%N])
                  ++ concat (map (fun v => v ++ [10%N]) (v' :: rest)));
      [reflexivity|].
    rewrite IH by discriminate.
    now rewrite <- !app_assoc.
Qed.

Lemma ends_with_space_app (a b : str) :
  b <> [] -> ends_with_space (a ++ b) = ends_with_space b.
Proof.
  intros Hb. unfold ends_with_space. rewrite rev_app_distr.
  destruct (rev b) as [|c r] eqn:E; [|reflexivity].
  exfalso. apply Hb. apply (f_equal (@rev char)) in E.
  now rewrite rev_involutive in E.
Qed.

Lemma join_lines_edges (ids : list str) :
  ids <> [] ->
  (forall v, In v ids -> v <> [] /\ forall c, In c v -> isspace c = false) ->
  join_lines ids <> [] /\
  starts_with_space (join_lines ids) = false /\
  ends_with_space (join_lines ids) = false.
Proof.
  induction ids as [|v rest IH]; intros Hne H; [contradiction|].
  destruct (H v (or_introl eq_refl)) as [Hv Hc].
  destruct (plain_no_edge_space v Hc) as [S1 S2].
  destruct rest as [|v' rest]; [cbn; auto|].
  change (join_lines (v :: v' :: rest))
    with (v ++ 10%N :: join_lines (v' :: rest)).
  destruct IH as (N1 & _ & E2); [discriminate | intros w Hw; apply H; now right|].
  repeat split.
  - destruct v; [contradiction | discriminate].
  - destruct v; [contradiction | exact S1].
  - rewrite ends_with_space_app by discriminate.
    change (10%N :: join_lines (v' :: rest))
      with ([10%N] ++ join_lines (v' :: rest)).
    now rewrite ends_with_space_app.
Qed.

Lemma rstrip_newline (s : str) : rstrip (s ++ [10%N]) = rstrip s.
Proof. unfold rstrip. now rewrite rev_app_distr. Qed.

Lemma filter_truthy_ids (ids : list str) :
  (forall v, In v ids -> v <> []) -> filter truthy ids = ids.
Proof.
  induction ids as [|v rest IH]; intros H; [reflexivity|].
  cbn [filter]. destruct v as [|c v]; [now destruct (H [] (or_introl eq_refl))|].
  cbn [truthy]. rewrite IH; [reflexivity|]. intros w Hw. apply H. now right.
Qed.

Lemma extract_playlist_url (v : str) :
  well_formed_id v ->
  _extract_video_id (lit "https://www.youtube.com/watch?v=" ++ v) = Some v.
Proof.
  intros W.
  replace (lit "https://www.youtube.com/watch?v=" ++ v)
    with (lit "https://www.youtube.com/watch?" ++ lit "v=" ++ v ++ [])
    by (rewrite app_nil_r; reflexivity).
  rewrite extract_video_id_skip by exact no_v_in_watch_prefix.
  now apply extract_video_id_here.
Qed.

Lemma scrape_playlist_lines (ids : list str) (stderr : str) :
  Forall well_formed_id ids ->
  scrape_playlist_videos
    (EnumExited 0 (concat (map (fun v => v ++ [10%N]) ids)) stderr)
  = map (fun v => lit "https://www.youtube.com/watch?v=" ++ v) ids.
Proof.
  intros W. rewrite Forall_forall in W.
  unfold scrape_playlist_videos. cbn [Z.eqb].
  destruct ids as [|v0 rest] eqn:Eids; [reflexivity|]. rewrite <- Eids in *.
  assert (Hne : ids <> []) by (rewrite Eids; discriminate).
  rewrite lines_join_lines by exact Hne.
  destruct (join_lines_edges ids Hne) as (N1 & S1 & S2).
  { intros v Hv. destruct (well_formed_id_plain v (W v Hv)) as [Hv0 Hc].
    split; [exact Hv0|]. intros c Hcv. now apply Hc. }
  unfold strip. rewrite lstrip_fixed.
  2:{ destruct (join_lines ids); [contradiction | exact S1]. }
  rewrite rstrip_newline, rstrip_fixed by exact S2.
  rewrite split_join_lines; [|exact Hne|].
  2:{ intros v Hv Hin.
      destruct (well_formed_id_plain v (W v Hv)) as [_ Hc].
      now destruct (Hc 10%N Hin). }
  rewrite filter_truthy_ids; [reflexivity|].
  intros v Hv. now destruct (well_formed_id_plain v (W v Hv)).
Qed.

(** X18. The playlist enumeration reads back what the tool prints. When
    the tool exits with code 0 after printing well-formed ids, one per
    line, the URLs returned are the watch URLs of these ids in the order
    printed, and the id extracted from each is the id printed. Output
    made of whitespace only gives no URL. *)
Theorem playlist_ids_become_urls :
  forall (ids : list str) (blank stderr : str),
    (Forall well_formed_id ids ->
     let urls := scrape_playlist_videos
                   (EnumExited 0 (concat (map (fun v => v ++ [10%N]) ids)) stderr) in
     urls = map (fun v => lit "https://www.youtube.com/watch?v=" ++ v) ids /\
     map _extract_video_id urls = map Some ids) /\
    (forallb isspace blank = true ->
     scrape_playlist_videos (EnumExited 0 blank stderr) = []).
Proof.
  intros ids blank stderr. split.
  - intros W urls.
    assert (U : urls = map (fun v => lit "https://www.youtube.com/watch?v=" ++ v) ids)
      by (subst urls; now apply scrape_playlist_lines).
    rewrite Forall_forall in W.
    split; [exact U|]. rewrite U, map_map.
    apply map_ext_in. intros v Hv. now apply extract_playlist_url, W.
  - intros B. unfold scrape_playlist_videos. cbn [Z.eqb].
    now rewrite strip_all_space.
Qed.

Lemma playlist_ids_become_urls_witness :
  scrape_playlist_videos
    (EnumExited 0 (concat (map (fun v => v ++ [10%N]) [Examples.id_A; Examples.id_B])) [])
  = [Examples.url_A; Examples.url_B].
Proof.
  apply (playlist_ids_become_urls [Examples.id_A; Examples.id_B] [] []).
  repeat constructor.
Defined.

(** ** Scraped links *)

Lemma sub_skipping_head (s : str) :
  sub_list_param true s = [] \/ exists t, sub_list_param true s = 10%N :: t.
Proof.
  induction s as [|c s IH]; [now left|].
  cbn [sub_list_param]. destruct (N.eqb c 10) eqn:E; [|exact IH].
  apply N.eqb_eq in E. subst c. right. now eexists.
Qed.

Lemma sub_list_param_cons (c : char) (s : str) :
  sub_list_param false (c :: s)
  = if startswith (lit "&list=") (c :: s) then sub_list_param true s
    else c :: sub_list_param false s.
Proof. reflexivity. Qed.

Lemma startswith_after_sub (w : str) :
  ~ In 10%N w ->
  forall s, startswith w (sub_list_param false s) = true -> startswith w s = true.
Proof.
  induction w as [|x w IH]; intros Hw s H; [reflexivity|].
  destruct s as [|c s]; [discriminate H|].
  rewrite sub_list_param_cons in H.
  destruct (startswith (lit "&list=") (c :: s)).
  - exfalso. destruct (sub_skipping_head s) as [E | [t E]]; rewrite E in H.
    + discriminate H.
    + cbn [startswith] in H. apply andb_true_iff in H as [H _].
      apply N.eqb_eq in H. apply Hw. left. now symmetry.
  - cbn [startswith] in *. apply andb_true_iff in H as [H1 H2].
    rewrite H1. cbn. apply IH; [|exact H2].
    intros Hin. apply Hw. now right.
Qed.

Lemma contains_cons (sub : str) (c : char) (s : str) :
  contains sub (c :: s) = startswith sub (c :: s) || contains sub s.
Proof. reflexivity. Qed.

Lemma no_list_param_after_sub (s : str) :
  forall b, contains (lit "&list=") (sub_list_param b s) = false.
Proof.
  induction s as [|c s IH]; intros b; [now destruct b|].
  destruct b.
  - cbn [sub_list_param]. destruct (N.eqb c 10) eqn:E; [|apply IH].
    apply N.eqb_eq in E. subst c. rewrite contains_cons, IH. reflexivity.
  - pose proof (startswith_after_sub (lit "&list=")) as L.
    specialize (L ltac:(cbn; intuition discriminate) (c :: s)).
    rewrite sub_list_param_cons in *.
    destruct (startswith (lit "&list=") (c :: s)) eqn:E; [apply IH|].
    rewrite contains_cons, IH, orb_false_r.
    destruct (startswith (lit "&list=") (c :: sub_list_param false s)) eqn:E';
      [|reflexivity].
    now specialize (L eq_refl).
Qed.

(** X19. No URL the channel scrape collects holds a playlist parameter:
    whatever the link, the collected URL contains no [&list=]. *)
Theorem scraped_link_has_no_list_param :
  forall (href : option str) (url : str),
    scraped_link href = Some url ->
    contains (lit "&list=") url = false.
Proof.
  intros href url H. unfold scraped_link in H.
  destruct href as [h|]; [|discriminate].
  destruct (truthy h && contains (lit "/watch?v=") h); [|discriminate].
  injection H as <-. apply no_list_param_after_sub.
Qed.

Lemma scraped_link_has_no_list_param_witness :
  scraped_link (Some (lit "/watch?v=AAAAAAAAAAA&list=PL1&index=2&list=PL2"))
  = Some Examples.url_A /\
  contains (lit "&list=") Examples.url_A = false.
Proof.
  split; [reflexivity|].
  apply (scraped_link_has_no_list_param
           (Some (lit "/watch?v=AAAAAAAAAAA&list=PL1&index=2&list=PL2"))).
  reflexivity.
Defined.

Lemma sub_plain_prefix (u s : str) :
  ~ In 38%N u -> sub_list_param false (u ++ s) = u ++ sub_list_param false s.
Proof.
  induction u as [|c u IH]; intros H; [reflexivity|].
  rewrite <- !app_comm_cons, sub_list_param_cons.
  replace (startswith (lit "&list=") (c :: u ++ s)) with false.
  - rewrite IH; [reflexivity|]. intros Hin. apply H. now right.
  - symmetry. cbn [lit map list_ascii_of_string startswith].
    apply andb_false_iff. left. apply N.eqb_neq. intros E. apply H. left.
    rewrite <- E. reflexivity.
Qed.

Lemma sub_skipping_line (s : str) :
  ~ In 10%N s -> sub_list_param true s = [].
Proof.
  induction s as [|c s IH]; intros H; [reflexivity|].
  cbn [sub_list_param].
  replace (N.eqb c 10) with false.
  - apply IH. intros Hin. apply H. now right.
  - symmetry. apply N.eqb_neq. intros E. apply H. now left.
Qed.

Lemma remove_list_param_suffix (u rest : str) :
  ~ In 38%N u -> ~ In 10%N rest ->
  remove_list_param (u ++ lit "&list=" ++ rest) = u /\
  remove_list_param u = u.
Proof.
  intros Hu Hr. unfold remove_list_param. split.
  - rewrite sub_plain_prefix by exact Hu.
    change (lit "&list=" ++ rest) with (38%N :: (lit "list=" ++ rest)).
    rewrite sub_list_param_cons.
    change (startswith (lit "&list=") (38%N :: lit "list=" ++ rest)) with true.
    cbn iota. rewrite sub_skipping_line; [apply app_nil_r|].
    intros Hin. apply in_app_or in Hin as [Hin|Hin]; [|contradiction].
    cbn in Hin. intuition discriminate.
  - rewrite <- (app_nil_r u) at 1. rewrite sub_plain_prefix by exact Hu.
    cbn. apply app_nil_r.
Qed.

Lemma startswith_app (w s : str) : startswith w (w ++ s) = true.
Proof.
  induction w as [|x w IH]; [reflexivity|].
  cbn. now rewrite N.eqb_refl, IH.
Qed.

(** X20. Links to one video give one URL. For a well-formed id, the
    relative link [/watch?v=<id>] and the same link followed by a
    playlist parameter [&list=...] (anything up to the end of the line)
    are both collected as [https://www.youtube.com/watch?v=<id>], from
    which the id is extracted again. *)
Theorem scraped_links_of_one_video_agree :
  forall (v rest : str),
    well_formed_id v ->
    ~ In 10%N rest ->
    let url := lit "https://www.youtube.com/watch?v=" ++ v in
    scraped_link (Some (lit "/watch?v=" ++ v ++ lit "&list=" ++ rest)) = Some url /\
    scraped_link (Some (lit "/watch?v=" ++ v)) = Some url /\
    _extract_video_id url = Some v.
Proof.
  intros v rest W Hr url.
  assert (Hu : ~ In 38%N url).
  { subst url. intros Hin. apply in_app_or in Hin as [Hin|Hin].
    - apply (In_nth _ _ 0%N) in Hin as (n & Hn & E). cbn in Hn.
      do 32 (destruct n as [|n]; [discriminate E|]). lia.
    - destruct W as [_ F]. rewrite forallb_forall in F.
      specialize (F _ Hin). discriminate F. }
  destruct (remove_list_param_suffix url rest Hu Hr) as [R1 R2].
  assert (S : forall t, scraped_link (Some (lit "/watch?v=" ++ t))
                        = Some (remove_list_param
                                  (lit "https://www.youtube.com/watch?v=" ++ t))).
  { intros t. unfold scraped_link.
    replace (contains (lit "/watch?v=") (lit "/watch?v=" ++ t)) with true.
    - reflexivity.
    - symmetry. destruct (lit "/watch?v=" ++ t) eqn:E; [discriminate E|].
      rewrite contains_cons, <- E, startswith_app. reflexivity. }
  subst url. split; [|split].
  - rewrite S. now rewrite app_assoc, R1.
  - rewrite S. now rewrite R2.
  - now apply extract_playlist_url.
Qed.

Lemma scraped_links_of_one_video_agree_witness :
  scraped_link (Some (lit "/watch?v=" ++ Examples.id_A ++ lit "&list=" ++ lit "PL1"))
  = scraped_link (Some (lit "/watch?v=" ++ Examples.id_A)).
Proof.
  assert (W : well_formed_id Examples.id_A) by (split; reflexivity).
  assert (R : ~ In 10%N (lit "PL1")) by (cbn; intuition discriminate).
  destruct (scraped_links_of_one_video_agree Examples.id_A (lit "PL1") W R)
    as (E1 & E2 & _).
  now rewrite E1, E2.
Defined.

(** ** Listing *)

Lemma length_ljust (w : nat) (s : str) :
  length (ljust w s) = Nat.max w (length s).
Proof.
  unfold ljust. rewrite length_app, repeat_length.
  destruct (Nat.max_spec w (length s)) as [[H ->] | [H ->]]; lia.
Qed.

Lemma title_display_length (t : option str) : length (title_display t) <= 50.
Proof.
  unfold title_display, title_or_na, slice_to.
  destruct t as [t|]; [|cbn; lia].
  destruct (truthy t) eqn:T; cbn [andb]; [|cbn; lia].
  destruct (50 <? length t) eqn:L.
  - rewrite length_app, length_firstn.
    pose proof (Nat.le_min_l 47 (length t)).
    change (length (lit "...")) with 3. lia.
  - apply Nat.ltb_ge in L. exact L.
Qed.

Lemma url_display_length (u : str) : length (url_display u) <= 40.
Proof.
  unfold url_display, slice_to. destruct (40 <? length u) eqn:L.
  - rewrite length_app, length_firstn.
    pose proof (Nat.le_min_l 37 (length u)).
    change (length (lit "...")) with 3. lia.
  - apply Nat.ltb_ge in L. exact L.
Qed.

Lemma row_line_length (r : Row) :
  length (row_line r) = Nat.max 5 (length (decimal (id r))) + 105.
Proof.
  unfold row_line. rewrite !length_app, !length_ljust.
  pose proof (title_display_length (title r)).
  pose proof (url_display_length (video_url r)).
  assert (length (status_text (status r)) <= 12)
    by (destruct (status r); cbn; lia).
  destruct (Nat.max_spec 12 (length (status_text (status r)))) as [[? ->]|[? ->]];
    destruct (Nat.max_spec 50 (length (title_display (title r)))) as [[? ->]|[? ->]];
    destruct (Nat.max_spec 40 (length (url_display (video_url r)))) as [[? ->]|[? ->]];
    cbn [length]; lia.
Qed.

(** X21. The listing keeps its columns aligned. Every line printed after
    the header and the rule is the line of a stored row, of the status
    asked for if one is given; the title shown is at most 50 characters
    long and the URL shown at most 40, so the line is exactly 105
    characters longer than its id field, which is 5 wide, or as wide as
    the id when that is longer. *)
Theorem listing_rows_are_aligned :
  forall (db : DB) (st : option Status) (line : str),
    In line (skipn 2 (list_videos db st)) ->
    exists r,
      In r (rows db) /\
      (forall s, st = Some s -> status r = s) /\
      line = row_line r /\
      length (title_display (title r)) <= 50 /\
      length (url_display (video_url r)) <= 40 /\
      length line = Nat.max 5 (length (decimal (id r))) + 105.
Proof.
  intros db st line H. unfold list_videos in H.
  set (videos := match st with
                 | Some s => filter (fun r => Status_eqb (status r) s) (rows db)
                 | None => rows db
                 end) in *.
  assert (V : forall r, In r videos ->
                        In r (rows db) /\ forall s, st = Some s -> status r = s).
  { intros r Hr. subst videos. destruct st as [s|].
    - apply filter_In in Hr as [Hr E]. split; [exact Hr|].
      intros s' [= <-]. now apply Status_eqb_eq.
    - split; [exact Hr | discriminate]. }
  destruct videos as [|v vs] eqn:E; [destruct H|].
  cbn [skipn] in H. apply in_map_iff in H as (r & <- & Hr).
  destruct (V r Hr) as [Hin Hst].
  exists r. repeat split; auto.
  - apply title_display_length.
  - apply url_display_length.
  - apply row_line_length.
Qed.

Lemma listing_rows_are_aligned_witness :
  map (@length char) (list_videos Examples.db_mixed (Some completed)) = [111; 120; 110].
Proof.
  pose proof (listing_rows_are_aligned Examples.db_mixed (Some completed)
                (row_line (hd (pending_row 0 [] [] [] 0%N)
                             (rows Examples.db_mixed)))) as H.
  destruct H as (r & _ & _ & _ & _ & _ & _); [now left|].
  reflexivity.
Defined.

(** ** Invariants of the store *)

Lemma update_keeps_urls db url st p t c e now :
  map video_url (rows (_update_video_status db url st p t c e now))
  = map video_url (rows db).
Proof.
  cbn [_update_video_status rows]. rewrite map_map.
  apply map_ext. intros r. apply update_row_url.
Qed.

(** X22. The URLs of the store stay unique under every repository
    operation: an insertion of a stored URL is swallowed, a status update
    writes no URL, and a deletion only removes rows. *)
Theorem urls_stay_unique :
  forall (db : DB) (op : RepoOp),
    unique_urls db -> unique_urls (apply_op db op).
Proof.
  intros db op U.
  destruct op as [url channel now | url path t c now | url err now | a];
    cbn [apply_op].
  - now apply add_one_unique.
  - unfold unique_urls. now rewrite update_keeps_urls.
  - unfold unique_urls. now rewrite update_keeps_urls.
  - unfold unique_urls, delete_videos.
    destruct (length (filter (selected a) (rows db)) =? 0); cbn; [exact U|].
    now apply NoDup_map_filter.
Qed.

Lemma urls_stay_unique_witness :
  unique_urls (apply_op Examples.db_A_pending
                 (OpInsert Examples.url_A (lit "again") 7%N)) /\
  length (rows (apply_op Examples.db_A_pending
                  (OpInsert Examples.url_A (lit "again") 7%N))) = 1.
Proof.
  split; [|reflexivity].
  apply urls_stay_unique. unfold unique_urls. cbn.
  repeat constructor. intros [].
Defined.

Lemma unique_url_row (rs : list Row) (r r' : Row) :
  NoDup (map video_url rs) -> In r rs -> In r' rs ->
  video_url r = video_url r' -> r = r'.
Proof.
  induction rs as [|x rs IH]; intros ND Hr Hr' U; [destruct Hr|].
  cbn in ND. apply NoDup_cons_iff in ND as [Hn ND].
  destruct Hr as [->|Hr], Hr' as [->|Hr']; auto.
  - exfalso. apply Hn. rewrite U. now apply in_map.
  - exfalso. apply Hn. rewrite <- U. now apply in_map.
Qed.

Lemma download_video_consistent P db vid url custom use_title info dl now :
  Forall row_consistent (rows db) ->
  (forall r, In r (rows db) -> video_url r = url -> status r = pending) ->
  Forall row_consistent
    (rows (fst (download_video P db vid url custom use_title info dl now))).
Proof.
  intros C Hp. rewrite Forall_forall in C.
  assert (Ff : forall err,
             Forall row_consistent
               (rows (fst (fail_with db url err now)))).
  { intros err. cbn [fail_with fst _update_video_status rows].
    apply Forall_forall. intros r' Hr'. apply in_map_iff in Hr' as (r & <- & Hr).
    apply mark_failed_consistent; [now apply C | now apply Hp]. }
  unfold download_video.
  destruct info as [|msg|rc out]; try apply Ff.
  destruct dl as [msg|rc' lines]; try apply Ff.
  destruct (rc' =? 0)%Z; [|apply Ff].
  cbn [fst _update_video_status rows].
  apply Forall_forall. intros r' Hr'. apply in_map_iff in Hr' as (r & <- & Hr).
  apply mark_completed_consistent; [now apply C | now apply Hp].
Qed.

Lemma batch_loop_consistent P interactive io (videos : list (N * str * str)) :
  forall db ut k,
    NoDup (map (fun t => snd (fst t)) videos) ->
    (forall r, In r (rows db) ->
               In (video_url r) (map (fun t => snd (fst t)) videos) ->
               status r = pending) ->
    Forall row_consistent (rows db) ->
    Forall row_consistent
      (rows (fst (batch_loop P db ut interactive k videos io))).
Proof.
  induction videos as [|[[i url] vid] rest IH]; intros db ut k ND Hp C;
    [exact C|].
  rewrite batch_loop_step. cbn zeta. cbn [fst].
  cbn [map fst snd] in ND, Hp. apply NoDup_cons_iff in ND as [Hn ND].
  set (naming := item_naming interactive ut (io k)).
  apply IH; [exact ND | |].
  - destruct (download_video_as_update P db vid url (fst naming) (snd naming)
                (info (io k)) (dl (io k)) (now (io k)))
      as (p & t & c & e & E).
    rewrite E. cbn [_update_video_status rows].
    intros r' Hr' Hin. apply in_map_iff in Hr' as (r & <- & Hr).
    rewrite update_row_url in Hin.
    rewrite update_row_other by (intros E'; rewrite E' in Hin; contradiction).
    apply Hp; [exact Hr | now right].
  - apply download_video_consistent; [exact C|].
    intros r Hr U. apply Hp; [exact Hr | now left].
Qed.

(** X23. A batch keeps the store consistent. In a store with unique URLs
    where every row satisfies the three biconditionals between status,
    [download_path] and [error_msg], every row satisfies them again after
    [download_all_pending], confirmed or not and whatever the downloads
    do: the batch updates each pending job once and no other job. *)
Theorem batch_keeps_rows_consistent :
  forall (output_path_str : str -> str) (db : DB) (use_title interactive : bool)
         (channel : option str) (skip_confirmation : bool) (answer : str)
         (io : nat -> ItemIO),
    unique_urls db ->
    Forall row_consistent (rows db) ->
    Forall row_consistent
      (rows (fst (download_all_pending output_path_str db use_title
                    interactive channel skip_confirmation answer io))).
Proof.
  intros P db ut interactive channel skip answer io U C.
  unfold download_all_pending.
  destruct (get_pending_videos db channel) as [|v vs] eqn:V; [exact C|].
  destruct (negb skip && negb (str_eqb answer (lit "y"))); [exact C|].
  rewrite <- V. apply batch_loop_consistent; [| |exact C].
  - rewrite get_pending_videos_eq, map_map. cbn [fst snd].
    now apply NoDup_map_filter.
  - intros r Hr Hin. rewrite get_pending_videos_eq, map_map in Hin.
    cbn [fst snd] in Hin. apply in_map_iff in Hin as (r0 & E & Hr0).
    apply filter_In in Hr0 as [Hr0 K]. apply andb_true_iff in K as [K _].
    apply Status_eqb_eq in K.
    now rewrite (unique_url_row (rows db) r r0 U Hr Hr0 (eq_sym E)).
Qed.

Lemma batch_keeps_rows_consistent_witness :
  Forall row_consistent
    (rows (fst (download_all_pending Examples.downloads Examples.db_two_pending
                  true true None true [] Examples.io_n_then_y))).
Proof.
  apply batch_keeps_rows_consistent.
  - unfold unique_urls. cbn. repeat constructor; cbn; intuition discriminate.
  - repeat constructor; cbn; intros; try discriminate; try tauto;
      repeat match goal with H : _ /\ _ |- _ => destruct H end; discriminate.
Defined.

(** ** The playlist command *)



